(** * Monotone diameter of a polytope graph (MonoDiamCode.py)

    A shallow embedding of the script [MonotoneDiameter/MonoDiamCode.py]:
    edge-direction extraction, orientation vectors, the sink scan, the
    directed graph of an orientation, the Bellman-Ford style relaxation and
    the running maximum.  The convex-geometry layer (Sage's [Polyhedron],
    [HyperplaneArrangements], [vertices], [neighbors], [regions], [rays]) is
    external: the model takes the vertex list, the adjacency function and
    the regions as inputs.

    Vertices are coordinate tuples of exact rationals; Sage keeps rationals
    in lowest terms and compares tuples by value, which is Leibniz equality
    on [list Qc]. *)

From stdpp Require Import gmap list numbers countable relations strings.
From Stdlib Require Import QArith Qcanon Qcabs Lia Lqa.

Close Scope Qc_scope.
Close Scope Q_scope.
Local Open Scope nat_scope.

(** ** Exceptions and results *)

(** The Python exceptions the script can raise. *)
Inductive exn : Set :=
| IndexError          (* Pverts[0] on an empty vertex list *)
| AttributeError      (* .dot_product on the int 0 that sum([]) returns *)
| KeyError            (* distances[...] on a missing key *)
| ValueError          (* min([]) or max([]) *)
| ZeroDivisionError.  (* division of a vector by a zero 1-norm *)

Inductive result (A : Type) : Type :=
| Ok (a : A)
| Raise (e : exn).
Arguments Ok {A} a.
Arguments Raise {A} e.

Global Instance result_bind : MBind result := λ A B f r,
  match r with
  | Ok a => f a
  | Raise e => Raise e
  end.

(** [for x in l: st = f(st, x)], stopping at the first exception. *)
Fixpoint for_each {A S} (f : S → A → result S) (l : list A) (st : S) : result S :=
  match l with
  | [] => Ok st
  | x :: l' => st' ← f st x; for_each f l' st'
  end.

(** A list comprehension whose element expression may raise. *)
Fixpoint comprehension {A B} (f : A → result B) (l : list A) : result (list B) :=
  match l with
  | [] => Ok []
  | x :: l' => y ← f x; ys ← comprehension f l'; Ok (y :: ys)
  end.

(** Python's [min] and [max] of a list of integers. *)
Definition py_min (l : list nat) : result nat :=
  match l with
  | [] => Raise ValueError
  | x :: l' => Ok (foldl Nat.min x l')
  end.

Definition py_max (l : list nat) : result nat :=
  match l with
  | [] => Raise ValueError
  | x :: l' => Ok (foldl Nat.max x l')
  end.

(** [d[k]] on a dict. *)
Definition getitem `{Countable K} {A} (d : gmap K A) (k : K) : result A :=
  match d !! k with
  | Some a => Ok a
  | None => Raise KeyError
  end.

(** ** The relaxation loop (lines 106-121), over any key type *)

Section Relaxer.
Context `{Countable K}.

Variable Pverts : list K.
Variable dir_neighbors : gmap K (list K).

(** The body of [for u in Pverts] inside one round; the state is the pair
    of the dict [distances] and the flag [no_change]. *)
Definition relax_step (st : gmap K nat * bool) (u : K) : result (gmap K nat * bool) :=
  let '(distances, no_change) := st in
  dir_neighborhood ← getitem dir_neighbors u;
  match dir_neighborhood with
  | [] => Ok (distances, no_change)
  | _ =>
    ds ← comprehension (getitem distances) dir_neighborhood;
    comp ← py_min ds;
    du ← getitem distances u;
    if decide (comp + 1 < du)
    then Ok (<[u := comp + 1]> distances, false)
    else Ok (distances, no_change)
  end.

(** One round: [no_change = True], then the inner loop. *)
Definition relax_round (distances : gmap K nat) : result (gmap K nat * bool) :=
  for_each relax_step Pverts (distances, true).

(** [for i in range(len(Pverts))] with the [break] on [no_change].  The
    second component counts the rounds whose body ran. *)
Fixpoint relax_loop (fuel : nat) (distances : gmap K nat) (no_change : bool)
    (rounds : nat) : result (gmap K nat * nat) :=
  match fuel with
  | 0 => Ok (distances, rounds)
  | S fuel' =>
    if no_change then Ok (distances, rounds)
    else
      '(distances', no_change') ← relax_round distances;
      relax_loop fuel' distances' no_change' (S rounds)
  end.

(** Lines 93-95 and 104: every vertex at [num_verts], then the sink at 0. *)
Definition init_distances (sink : K) : gmap K nat :=
  <[sink := 0]> (foldl (λ d u, <[u := length Pverts]> d) ∅ Pverts).

(** Lines 86-121 for a given directed graph and sink. *)
Definition relaxed_distances (sink : K) : result (gmap K nat) :=
  '(distances, _) ← relax_loop (length Pverts) (init_distances sink) false 0;
  Ok distances.

(** Line 123. *)
Definition oridiam_of (distances : gmap K nat) : result nat :=
  ds ← comprehension (getitem distances) Pverts; py_max ds.

End Relaxer.

(** ** Exact rational vectors *)

(** A Sage vector over QQ, and also the tuple of its coordinates.  All
    vertices of [P] and all rays of the arrangement live in the same
    ambient space QQ^n, so the coordinate-wise operations below are only
    ever applied to lists of one length. *)
Definition vector : Type := list Qc.

Definition vadd (a b : vector) : vector := zip_with Qcplus a b.
Definition vsub (a b : vector) : vector := zip_with Qcminus a b.
Definition vneg (a : vector) : vector := Qcopp <$> a.

(** [sum([abs(x) for x in list(a)])]. *)
Definition norm1 (a : vector) : Qc := foldl Qcplus (Q2Qc 0) (Qcabs <$> a).

(** [a / s] for a rational [s]. *)
Definition vdiv (a : vector) (s : Qc) : result vector :=
  if decide (s = Q2Qc 0) then Raise ZeroDivisionError
  else Ok ((λ x, x / s)%Qc <$> a).

(** [a.dot_product(b)] on two vectors. *)
Definition dot (a b : vector) : Qc :=
  foldr (λ p acc, (p.1 * p.2 + acc)%Qc) (Q2Qc 0) (zip a b).

(** What Python's [sum] of a list of vectors returns: the int [0] for the
    empty list, a vector otherwise. *)
Inductive pysum : Type :=
| Int0
| Vec (v : vector).

Definition pysum_add (acc : pysum) (v : vector) : pysum :=
  match acc with
  | Int0 => Vec v
  | Vec a => Vec (vadd a v)
  end.

(** [orientation_vec.dot_product(v)]: the int [0] has no such method. *)
Definition dot_product (o : pysum) (v : vector) : result Qc :=
  match o with
  | Int0 => Raise AttributeError
  | Vec a => Ok (dot a v)
  end.

(** ** The script *)

Section Script.
(** [P.vertices()] and [u.neighbors()], supplied by Sage. *)
Variable Pverts : list vector.
Variable neighbors : vector → list vector.

(** *** Edge directions (lines 28-37) *)

(** Line 32. *)
Definition edge_dir (u v : vector) : result vector :=
  vdiv (vsub u v) (norm1 (vsub u v)).

(** Lines 32-34.  The dict [edge_dirs] only ever maps keys to [True];
    it is modelled as the list of its keys in insertion order, which is
    the order [edge_dirs.keys()] returns. *)
Definition edge_dirs_step (u : vector) (edge_dirs : list vector) (v : vector)
    : result (list vector) :=
  e ← edge_dir u v;
  if decide ((e ∉ edge_dirs) ∧ (vneg e ∉ edge_dirs))
  then Ok (edge_dirs ++ [e])
  else Ok edge_dirs.

(** Lines 28-34. *)
Definition edge_dirs_keys : result (list vector) :=
  for_each (λ edge_dirs u, for_each (edge_dirs_step u) (neighbors u) edge_dirs)
           Pverts [].

(** Line 37. *)
Definition edge_dirs : result (list (vector * Z)) :=
  keys ← edge_dirs_keys; Ok ((λ e, (e, 0%Z)) <$> (keys : list vector)).

(** *** Orientation vectors (lines 57-62) *)

(** Line 61; a region is given by [region.rays()]. *)
Definition interior_point (rays : list vector) : pysum :=
  foldl pysum_add Int0 rays.

(** Lines 59-62. *)
Definition orientation_vecs (regions : list (list vector)) : list pysum :=
  foldl (λ acc region, acc ++ [interior_point region]) [] regions.

(** *** The sink (lines 72-79) *)

(** Lines 76-78; the state is [(currmax, currmaxval)]. *)
Definition sink_step (o : pysum) (st : vector * Qc) (vert : vector)
    : result (vector * Qc) :=
  a ← dot_product o vert;
  b ← dot_product o st.1;
  if decide (b < a)%Qc
  then (c ← dot_product o vert; Ok (vert, c))
  else Ok st.

(** Lines 73-79. *)
Definition find_sink (o : pysum) : result vector :=
  currmax ← match Pverts with
            | [] => Raise IndexError
            | v :: _ => Ok v
            end;
  currmaxval ← dot_product o currmax;
  st ← for_each (sink_step o) Pverts (currmax, currmaxval);
  Ok st.1.

(** *** The directed graph (lines 87-101) *)

(** Lines 100-101. *)
Definition orient_step (o : pysum) (u : vector)
    (dir_neighbors : gmap vector (list vector)) (v : vector)
    : result (gmap vector (list vector)) :=
  d ← dot_product o (vsub v u);
  if decide (Q2Qc 0 < d)%Qc
  then (l ← getitem dir_neighbors u; Ok (<[u := l ++ [v]]> dir_neighbors))
  else Ok dir_neighbors.

(** Lines 95-101; the state is [(distances, dir_neighbors)]. *)
Definition build_step (o : pysum)
    (st : gmap vector nat * gmap vector (list vector)) (u : vector)
    : result (gmap vector nat * gmap vector (list vector)) :=
  let distances := <[u := length Pverts]> st.1 in
  let dir_neighbors := <[u := []]> st.2 in
  dir_neighbors ← for_each (orient_step o u) (neighbors u) dir_neighbors;
  Ok (distances, dir_neighbors).

Definition build (o : pysum)
    : result (gmap vector nat * gmap vector (list vector)) :=
  for_each (build_step o) Pverts (∅, ∅).

(** *** One orientation (the body of the loop of line 70) *)

(** Lines 72-121: the dict [distances] when the relaxation is over. *)
Definition orientation_distances (o : pysum) : result (gmap vector nat) :=
  sink ← find_sink o;
  '(distances, dir_neighbors) ← build o;
  let distances := <[sink := 0]> distances in
  '(distances, _) ← relax_loop Pverts dir_neighbors (length Pverts) distances false 0;
  Ok distances.

(** Line 123 on the relaxed dict. *)
Definition orientation_diameter (o : pysum) : result nat :=
  distances ← orientation_distances o;
  oridiam_of Pverts distances.

(** *** The running maximum (lines 66-67 and 122-129) *)

(** Lines 126-127. *)
Definition monodiam_step (monodiam : nat) (o : pysum) : result nat :=
  oridiam ← orientation_diameter o;
  if decide (monodiam < oridiam) then Ok oridiam else Ok monodiam.

Definition monotone_diameter (orientation_vecs : list pysum) : result nat :=
  for_each monodiam_step orientation_vecs 0.

(** The two printed integers: [len(regions)] (line 58) and, unless an
    exception stops the script first, [monodiam] (line 129). *)
Definition script (regions : list (list vector)) : nat * result nat :=
  (length regions, monotone_diameter (orientation_vecs regions)).

End Script.

(** ** The input and the names of the arrangement's variables *)

(** [l[i]] on a list, for an index [i >= 0]. *)
Definition list_getitem {T} (l : list T) (i : nat) : result T :=
  match l !! i with
  | Some x => Ok x
  | None => Raise IndexError
  end.

(** Lines 14-16: the rows [[b[i]] + A[i]] for [i] in [range(len(A))]. *)
Definition ineq_system {T} (A : list (list T)) (b : list T) : result (list (list T)) :=
  for_each (λ rows i,
              bi ← list_getitem b i;
              Ai ← list_getitem A i;
              Ok (rows ++ [bi :: Ai]))
           (seq 0 (length A)) [].

(** Line 40: [n = len(A[0])]. *)
Definition num_variables {T} (A : list (list T)) : result nat :=
  row ← list_getitem A 0; Ok (length row).

(** Python's [s * k] on a string. *)
Fixpoint str_repeat (s : string) (k : nat) : string :=
  match k with
  | 0 => EmptyString
  | S k' => String.append s (str_repeat s k')
  end.

(** Line 44: [['A'*(i+1) for i in range(n)]]. *)
Definition indices (n : nat) : list string :=
  (λ i, str_repeat "A" (i + 1)) <$> seq 0 n.

(** ** Directed graphs, walks and the values of the loops *)

(** [m] is the minimum of the non-empty list [l]. *)
Definition is_min (m : nat) (l : list nat) : Prop :=
  m ∈ l ∧ ∀ y, y ∈ l → m ≤ y.

Section Graphs.
Context `{Countable K}.

Variable Pverts : list K.
Variable dir_neighbors : gmap K (list K).

(** The out-neighbours of [u] and the stored distance of [u]. *)
Definition out (u : K) : list K := default [] (dir_neighbors !! u).
Definition dist_at (d : gmap K nat) (u : K) : nat := default 0 (d !! u).

(** [dir_neighbors] is a directed graph on the vertices [Pverts]. *)
Record digraph_on : Prop := {
  dg_keys : ∀ u, u ∈ Pverts ↔ is_Some (dir_neighbors !! u);
  dg_edges : ∀ u v, v ∈ out u → v ∈ Pverts
}.

(** Every vertex has an entry in the dict. *)
Definition covers (d : gmap K nat) : Prop :=
  ∀ u, u ∈ Pverts → is_Some (d !! u).

(** Every entry of [d] is still there in [d'], and not larger. *)
Definition dict_le (d' d : gmap K nat) : Prop :=
  ∀ x k, d !! x = Some k → ∃ k', d' !! x = Some k' ∧ k' ≤ k.

(** The state a step returns when none of its lookups fails. *)
Definition relax_value (st : gmap K nat * bool) (u : K) : gmap K nat * bool :=
  match out u with
  | [] => st
  | v :: nb =>
    let comp := foldl Nat.min (dist_at st.1 v) (dist_at st.1 <$> nb) in
    if decide (comp + 1 < dist_at st.1 u)
    then (<[u := comp + 1]> st.1, false)
    else st
  end.

(** Likewise for a round over the list [l] and for the whole loop. *)
Definition round_value (l : list K) (st : gmap K nat * bool) : gmap K nat * bool :=
  foldl relax_value st l.

Fixpoint loop_value (fuel : nat) (d : gmap K nat) (no_change : bool)
    (rounds : nat) : gmap K nat * nat :=
  match fuel with
  | 0 => (d, rounds)
  | S fuel' =>
    if no_change then (d, rounds)
    else
      let st := round_value Pverts (d, true) in
      loop_value fuel' st.1 st.2 (S rounds)
  end.

(** An edge of the graph, and graphs without a directed cycle. *)
Definition edge (u v : K) : Prop := v ∈ out u.

Definition acyclic : Prop := ∀ u, ¬ tc edge u u.

End Graphs.

Section Walks.
Context `{Countable K}.

Variable Pverts : list K.
Variable dir_neighbors : gmap K (list K).
Variable sink : K.

Local Abbreviation outs := (out dir_neighbors).

(** [reach n u]: a directed walk of [n] edges leads from [u] to the sink. *)
Inductive reach : nat → K → Prop :=
| reach_sink : reach 0 sink
| reach_edge n u v : v ∈ outs u → reach n v → reach (S n) u.

(** The shortest walk length. *)
Definition is_dist (u : K) (k : nat) : Prop :=
  reach k u ∧ ∀ j, reach j u → k ≤ j.

(** The sink is the one vertex without out-neighbours. *)
Definition unique_sink : Prop :=
  sink ∈ Pverts ∧ ∀ u, u ∈ Pverts → (outs u = [] ↔ u = sink).

(** A stored distance is [num_verts] or the length of a walk. *)
Definition sound (d : gmap K nat) : Prop :=
  ∀ x, x ∈ Pverts →
    dist_at d x ≤ length Pverts ∧
    (dist_at d x = length Pverts ∨ reach (dist_at d x) x).

(** Walks of at most [k] edges are accounted for. *)
Definition progress (k : nat) (d : gmap K nat) : Prop :=
  ∀ u j, reach j u → j ≤ k → dist_at d u ≤ j.

(** The dict the loop ends on, from the script's initial dict. *)
Definition final_distances : gmap K nat :=
  (loop_value Pverts dir_neighbors (length Pverts)
     (init_distances Pverts sink) false 0).1.

(** *** The reference: breadth-first search from the sink, edges reversed *)

(** The out-neighbours of [v] in the reverse graph. *)
Definition rev_neighbors (v : K) : list K :=
  filter (λ u, v ∈ outs u) Pverts.

(** The vertices found from the frontier that have no distance yet. *)
Definition bfs_next (frontier : list K) (dist : gmap K nat) : list K :=
  remove_dups (filter (λ u, dist !! u = None) (frontier ≫= rev_neighbors)).

(** Level by level: the frontier holds the vertices at distance [lvl]. *)
Fixpoint bfs_levels (fuel lvl : nat) (frontier : list K) (dist : gmap K nat)
    : gmap K nat :=
  match fuel with
  | 0 => dist
  | S fuel' =>
    match bfs_next frontier dist with
    | [] => dist
    | next =>
      bfs_levels fuel' (S lvl) next (foldr (λ u, <[u := S lvl]>) dist next)
    end
  end.

Definition bfs_reference : gmap K nat :=
  bfs_levels (length Pverts) 0 [sink] {[sink := 0]}.

(** What holds when level [lvl] has been completed. *)
Record bfs_inv (lvl : nat) (frontier : list K) (dist : gmap K nat) : Prop := {
  inv_sound : ∀ u k, dist !! u = Some k →
    k ≤ lvl ∧ reach k u ∧ ∀ j, reach j u → k ≤ j;
  inv_complete : ∀ u j, reach j u → j ≤ lvl → is_Some (dist !! u);
  inv_frontier : ∀ u, u ∈ frontier ↔ dist !! u = Some lvl
}.

End Walks.

(** ** The values of the script's loops *)

Global Instance exn_eq_dec : EqDecision exn.
Proof. solve_decision. Defined.

Global Instance result_eq_dec `{EqDecision A} : EqDecision (result A).
Proof. solve_decision. Defined.

(** [currmax] after the scan of the list [l], for an orientation vector
    [a]. *)
Definition scan_value (a : vector) (cur : vector) (l : list vector) : vector :=
  foldl (λ c v, if decide (dot a c < dot a v)%Qc then v else c) cur l.

(** The sum of a region's ray generators as the specification has it,
    written out on the rationals: coordinate [i] of the sum is the sum of
    the rays' coordinates [i]. *)
Definition coordinate_sum (rays : list vector) (i : nat) : Qc :=
  foldl (λ acc x, (acc + default (Q2Qc 0) (x !! i))%Qc) (Q2Qc 0) rays.

(** The functional [a] strictly increases from [u] to [v] (line 100). *)
Definition improving (a u v : vector) : Prop := (Q2Qc 0 < dot a (vsub v u))%Qc.

Global Instance improving_dec a u v : Decision (improving a u v).
Proof. unfold improving. apply _. Defined.

(** Two directions are parallel: equal or opposite. *)
Definition parallel (e e' : vector) : Prop := e' = e ∨ e' = vneg e.

(** Lines 33-34 on a direction already computed. *)
Definition add_dir (keys : list vector) (e : vector) : list vector :=
  if decide ((e ∉ keys) ∧ (vneg e ∉ keys)) then keys ++ [e] else keys.

(** No two entries of the list are parallel. *)
Fixpoint norep (keys : list vector) : Prop :=
  match keys with
  | [] => True
  | k :: keys' => (∀ k', k' ∈ keys' → ¬ parallel k k') ∧ norep keys'
  end.

Section Polytope.
Variable Pverts : list vector.
Variable neighbors : vector → list vector.

(** The list [dir_neighbors[u]] and the dict [dir_neighbors] once the loop
    of line 94 is over. *)
Definition out_list (a u : vector) : list vector :=
  filter (improving a u) (neighbors u).

Definition dir_graph (a : vector) : gmap vector (list vector) :=
  foldl (λ g u, <[u := out_list a u]> g) ∅ Pverts.

(** The ordered adjacent pairs [(u, v)], in the order lines 29-30 visit
    them. *)
Definition adjacent_pairs : list (vector * vector) :=
  Pverts ≫= (λ u, (λ v, (u, v)) <$> neighbors u).

(** Every neighbour of a vertex is a vertex. *)
Definition neighbors_closed : Prop :=
  ∀ u v, u ∈ Pverts → v ∈ neighbors u → v ∈ Pverts.

(** All vertices lie in QQ^n. *)
Definition same_dimension (n : nat) : Prop :=
  ∀ v, v ∈ Pverts → length v = n.

(** What the geometry gives for a polytope and a functional that is not
    constant along any edge: at most one vertex has no improving neighbour
    (a local maximum of a linear functional on a polytope is its global
    maximum). *)
Definition unique_sink_orientation (a : vector) : Prop :=
  ∀ u u', u ∈ Pverts → u' ∈ Pverts →
    out_list a u = [] → out_list a u' = [] → u = u'.

End Polytope.

(** ** Test data: a directed graph on [nat], the unit square, a segment *)

Definition g3_verts : list nat := [0; 1; 2].
Definition g3 : gmap nat (list nat) := <[0 := []]> (<[1 := [0]]> (<[2 := [1; 0]]> ∅)).

Definition qz (z : Z) : Qc := Q2Qc (inject_Z z).

Definition sq00 : vector := [qz 0; qz 0].
Definition sq10 : vector := [qz 1; qz 0].
Definition sq11 : vector := [qz 1; qz 1].
Definition sq01 : vector := [qz 0; qz 1].
Definition square : list vector := [sq00; sq10; sq11; sq01].
Definition square_neighbors (u : vector) : list vector :=
  if decide (u = sq00) then [sq10; sq01]
  else if decide (u = sq10) then [sq00; sq11]
  else if decide (u = sq11) then [sq10; sq01]
  else if decide (u = sq01) then [sq00; sq11]
  else [].
Definition square_regions : list (list vector) :=
  [ [[qz 1; qz 0]; [qz 0; qz 1]];
    [[qz (-1); qz 0]; [qz 0; qz 1]];
    [[qz (-1); qz 0]; [qz 0; qz (-1)]];
    [[qz 1; qz 0]; [qz 0; qz (-1)]] ].

Definition f_tie : vector := [qz 0; qz 1].
Definition f_generic : vector := [qz 2; qz 1].
Definition segment : list vector := [sq00; sq10].
Definition segment_neighbors (u : vector) : list vector :=
  if decide (u = sq00) then [sq10]
  else if decide (u = sq10) then [sq00]
  else [].

(** ** Results: basic facts *)

Lemma bind_Ok {A B} (r : result A) (f : A → result B) (b : B) :
  r ≫= f = Ok b ↔ ∃ a, r = Ok a ∧ f a = Ok b.
Proof.
  destruct r as [a|e]; simpl.
  - split; [eauto | by intros (? & [= <-] & ?)].
  - split; [done | by intros (? & ? & ?)].
Qed.

Lemma for_each_app {A S} (f : S → A → result S) l1 l2 st :
  for_each f (l1 ++ l2) st = st' ← for_each f l1 st; for_each f l2 st'.
Proof.
  revert st. induction l1 as [|x l1 IH]; intros st; simpl; [done|].
  destruct (f st x) as [st'|e]; simpl; [apply IH | done].
Qed.

(** A loop whose body never raises is a left fold. *)
Lemma for_each_total {A S} (f : S → A → result S) (g : S → A → S)
    (I : S → Prop) l st :
  (∀ s x, I s → x ∈ l → f s x = Ok (g s x) ∧ I (g s x)) →
  I st →
  for_each f l st = Ok (foldl g st l) ∧ I (foldl g st l).
Proof.
  revert st. induction l as [|x l IH]; intros st Hf Hst; simpl; [done|].
  destruct (Hf st x Hst) as [-> HI]; [left|]. simpl.
  apply IH; [|done]. intros s y Hs Hy. apply Hf; [done | by right].
Qed.

Lemma getitem_Ok `{Countable K} {A} (d : gmap K A) k a :
  getitem d k = Ok a ↔ d !! k = Some a.
Proof.
  unfold getitem. destruct (d !! k); split; intros; simplify_eq; done.
Qed.

Lemma getitem_Some `{Countable K} {A} (d : gmap K A) k a :
  d !! k = Some a → getitem d k = Ok a.
Proof. apply getitem_Ok. Qed.

Lemma comprehension_total {A B} (f : A → result B) (g : A → B) l :
  (∀ x, x ∈ l → f x = Ok (g x)) → comprehension f l = Ok (g <$> l).
Proof.
  induction l as [|x l IH]; intros Hf; simpl; [done|].
  rewrite Hf by left. simpl. rewrite IH; [done|].
  intros y Hy. apply Hf. by right.
Qed.

Lemma foldl_min_le x l : foldl Nat.min x l ≤ x.
Proof.
  revert x. induction l as [|y l IH]; intros x; simpl; [done|].
  etrans; [apply IH | lia].
Qed.

Lemma foldl_min_lower x l y : y ∈ x :: l → foldl Nat.min x l ≤ y.
Proof.
  revert x. induction l as [|z l IH]; intros x Hy; simpl.
  - apply list_elem_of_singleton in Hy as ->. done.
  - apply elem_of_cons in Hy as [->|Hy].
    + etrans; [apply foldl_min_le | lia].
    + apply elem_of_cons in Hy as [->|Hy].
      * etrans; [apply foldl_min_le | lia].
      * apply IH. by right.
Qed.

Lemma foldl_min_elem x l : foldl Nat.min x l ∈ x :: l.
Proof.
  revert x. induction l as [|z l IH]; intros x; simpl; [left|].
  pose proof (IH (x `min` z)) as Hm. apply elem_of_cons in Hm as [Heq|Hin].
  - rewrite Heq. destruct (Nat.min_spec x z) as [[_ ->]|[_ ->]];
      [left | right; left].
  - right. by right.
Qed.

Lemma foldl_max_ge x l : x ≤ foldl Nat.max x l.
Proof.
  revert x. induction l as [|y l IH]; intros x; simpl; [done|].
  etrans; [|apply IH]. lia.
Qed.

Lemma foldl_max_upper x l y : y ∈ x :: l → y ≤ foldl Nat.max x l.
Proof.
  revert x. induction l as [|z l IH]; intros x Hy; simpl.
  - apply list_elem_of_singleton in Hy as ->. done.
  - apply elem_of_cons in Hy as [->|Hy].
    + etrans; [|apply foldl_max_ge]. lia.
    + apply elem_of_cons in Hy as [->|Hy].
      * etrans; [|apply foldl_max_ge]. lia.
      * apply IH. by right.
Qed.

Lemma foldl_max_elem x l : foldl Nat.max x l ∈ x :: l.
Proof.
  revert x. induction l as [|z l IH]; intros x; simpl; [left|].
  pose proof (IH (x `max` z)) as Hm. apply elem_of_cons in Hm as [Heq|Hin].
  - rewrite Heq. destruct (Nat.max_spec x z) as [[_ ->]|[_ ->]];
      [right; left | left].
  - right. by right.
Qed.

(** ** The relaxation loop on a directed graph *)

Section RelaxerTheory.
Context `{Countable K}.

Variable Pverts : list K.
Variable dir_neighbors : gmap K (list K).

Local Abbreviation out := (out dir_neighbors).
Local Abbreviation dist_at := (@dist_at K _ _).
Local Abbreviation digraph_on := (digraph_on Pverts dir_neighbors).
Local Abbreviation covers := (covers Pverts).
Local Abbreviation relax_value := (relax_value dir_neighbors).
Local Abbreviation round_value := (round_value dir_neighbors).
Local Abbreviation loop_value := (loop_value Pverts dir_neighbors).

Lemma covers_lookup d u : covers d → u ∈ Pverts → d !! u = Some (dist_at d u).
Proof. intros Hc Hu. unfold dist_at. by destruct (Hc u Hu) as [k ->]. Qed.

Lemma dist_at_insert_eq d u c : dist_at (<[u := c]> d) u = c.
Proof. unfold dist_at. by rewrite lookup_insert_eq. Qed.

Lemma dist_at_insert_ne d u x c : u ≠ x → dist_at (<[u := c]> d) x = dist_at d x.
Proof. intros Hne. unfold dist_at. by rewrite lookup_insert_ne. Qed.

Lemma is_min_unique m m' l : is_min m l → is_min m' l → m = m'.
Proof. intros [Hm Hlm] [Hm' Hlm']. apply Nat.le_antisymm; auto. Qed.

Lemma is_min_foldl x l : is_min (foldl Nat.min x l) (x :: l).
Proof. split; [apply foldl_min_elem | apply foldl_min_lower]. Qed.

Lemma covers_relax_value st u : covers st.1 → covers (relax_value st u).1.
Proof.
  intros Hc. unfold relax_value. destruct (out u) as [|v nb]; [done|].
  simpl. case_decide; [|done]. simpl. intros x Hx.
  destruct (decide (u = x)) as [->|Hne].
  - rewrite lookup_insert_eq. eauto.
  - rewrite lookup_insert_ne by done. by apply Hc.
Qed.

Lemma covers_round_value l st : covers st.1 → covers (round_value l st).1.
Proof.
  revert st. induction l as [|u l IH]; intros st Hc; simpl; [done|].
  apply IH. by apply covers_relax_value.
Qed.

Lemma relax_step_value st u :
  digraph_on → covers st.1 → u ∈ Pverts →
  relax_step dir_neighbors st u = Ok (relax_value st u).
Proof.
  intros Hg Hc Hu. destruct st as [d b]. simpl in Hc.
  unfold relax_step, relax_value, out.
  destruct (proj1 (dg_keys _ _ Hg u) Hu) as [nb Hnb].
  rewrite (getitem_Some _ _ _ Hnb). rewrite Hnb. simpl.
  destruct nb as [|v nb]; [done|].
  rewrite (comprehension_total _ (dist_at d)).
  - simpl. rewrite (getitem_Some _ _ _ (covers_lookup d u Hc Hu)). simpl.
    repeat case_decide; try done; exfalso; auto.
  - intros x Hx. apply getitem_Some, covers_lookup; [done|].
    apply (dg_edges _ _ Hg u). unfold out. by rewrite Hnb.
Qed.

Lemma relax_round_value d :
  digraph_on → covers d →
  relax_round Pverts dir_neighbors d = Ok (round_value Pverts (d, true)).
Proof.
  intros Hg Hc. unfold relax_round, round_value.
  apply (for_each_total _ relax_value (λ st, covers st.1)); [|done].
  intros st u Hst Hu. split; [by apply relax_step_value|].
  by apply covers_relax_value.
Qed.

Lemma covers_loop_value fuel d b r : covers d → covers (loop_value fuel d b r).1.
Proof.
  revert d b r. induction fuel as [|fuel IH]; intros d b r Hc; simpl; [done|].
  destruct b; [done|]. apply IH. by apply covers_round_value.
Qed.

Lemma relax_loop_value fuel d b r :
  digraph_on → covers d →
  relax_loop Pverts dir_neighbors fuel d b r = Ok (loop_value fuel d b r).
Proof.
  intros Hg. revert d b r.
  induction fuel as [|fuel IH]; intros d b r Hc; simpl; [done|].
  destruct b; [done|].
  rewrite relax_round_value by done. simpl.
  destruct (round_value Pverts (d, true)) as [d' b'] eqn:Hr. simpl.
  apply IH. change d' with (d', b').1. rewrite <-Hr.
  by apply covers_round_value.
Qed.

Lemma loop_value_rounds fuel d b r : (loop_value fuel d b r).2 ≤ r + fuel.
Proof.
  revert d b r. induction fuel as [|fuel IH]; intros d b r; simpl; [lia|].
  destruct b; simpl; [lia|]. etrans; [apply IH | lia].
Qed.

(** *** No step raises a stored distance *)

Lemma relax_value_le st u x :
  dist_at (relax_value st u).1 x ≤ dist_at st.1 x.
Proof.
  unfold relax_value. destruct (out u) as [|v nb]; [done|].
  simpl. case_decide as Hlt; [|done]. simpl. unfold dist_at at 1.
  destruct (decide (u = x)) as [->|Hne].
  - rewrite lookup_insert_eq. simpl. lia.
  - rewrite lookup_insert_ne by done. done.
Qed.

Lemma round_value_le l st x :
  dist_at (round_value l st).1 x ≤ dist_at st.1 x.
Proof.
  revert st. induction l as [|u l IH]; intros st; simpl; [done|].
  etrans; [apply IH | apply relax_value_le].
Qed.

(** After its step, [u] is at most one more than any out-neighbour. *)
Lemma relax_value_edge st u v :
  v ∈ out u → dist_at (relax_value st u).1 u ≤ S (dist_at st.1 v).
Proof.
  intros Hv. unfold relax_value. destruct (out u) as [|w nb] eqn:Hout.
  { by apply elem_of_nil in Hv. }
  simpl.
  assert (foldl Nat.min (dist_at st.1 w) (dist_at st.1 <$> nb) ≤ dist_at st.1 v)
    as Hmin.
  { apply foldl_min_lower. change (dist_at st.1 v ∈ dist_at st.1 <$> (w :: nb)).
    by apply list_elem_of_fmap_2. }
  case_decide as Hlt; simpl.
  - unfold dist_at at 1. rewrite lookup_insert_eq. simpl. lia.
  - lia.
Qed.

Lemma round_value_edge l st u v :
  u ∈ l → v ∈ out u → dist_at (round_value l st).1 u ≤ S (dist_at st.1 v).
Proof.
  revert st. induction l as [|w l IH]; intros st Hu Hv; simpl.
  { by apply elem_of_nil in Hu. }
  apply elem_of_cons in Hu as [->|Hu].
  - etrans; [apply round_value_le|]. by apply relax_value_edge.
  - etrans; [by apply IH|]. apply le_n_S, relax_value_le.
Qed.

(** A distance that a step lowered is one more than what some
    out-neighbour has; likewise for a round, where the out-neighbour may
    have gone down since. *)
Lemma relax_value_realised st u x :
  dist_at (relax_value st u).1 x < dist_at st.1 x →
  x = u ∧ ∃ v, v ∈ out u ∧ dist_at (relax_value st u).1 u = S (dist_at st.1 v).
Proof.
  unfold relax_value. destruct (out u) as [|v nb] eqn:Hout; [lia|].
  pose proof (foldl_min_elem (dist_at st.1 v) (dist_at st.1 <$> nb)) as Hel.
  set (comp := foldl Nat.min (dist_at st.1 v) (dist_at st.1 <$> nb)) in *.
  simpl. case_decide as Hdec; simpl; [|lia].
  destruct (decide (u = x)) as [->|Hne].
  - intros _. split; [done|].
    change (dist_at st.1 v :: (dist_at st.1 <$> nb))
      with (dist_at st.1 <$> (v :: nb)) in Hel.
    apply list_elem_of_fmap in Hel as (z & Hz & Hzin).
    exists z. split; [done|]. rewrite dist_at_insert_eq. lia.
  - rewrite dist_at_insert_ne by done. lia.
Qed.

Lemma round_value_realised l st x :
  dist_at (round_value l st).1 x < dist_at st.1 x →
  x ∈ l ∧
  ∃ v, v ∈ out x ∧
       S (dist_at (round_value l st).1 v) ≤ dist_at (round_value l st).1 x.
Proof.
  induction l as [|w l IH] using rev_ind; simpl; [lia|].
  unfold round_value in *. rewrite foldl_app. simpl.
  set (st1 := foldl relax_value st l) in *. intros Hlt.
  pose proof (relax_value_le st1 w) as Hle.
  destruct (decide (dist_at (relax_value st1 w).1 x < dist_at st1.1 x))
    as [Hstep|Hstep].
  - destruct (relax_value_realised _ _ _ Hstep) as [-> (v & Hv & Heq)].
    split; [apply elem_of_app; right; left|].
    exists v. split; [done|]. rewrite Heq. apply le_n_S, Hle.
  - pose proof (Hle x) as Hx.
    destruct IH as [Hxl (v & Hv & Hvle)]; [lia|].
    split; [apply elem_of_app; by left|].
    exists v. split; [done|]. pose proof (Hle v). lia.
Qed.

(** *** A round, step by step *)

Lemma relax_value_formula st u :
  covers st.1 → u ∈ Pverts →
  (out u = [] → (relax_value st u).1 = st.1) ∧
  (out u ≠ [] →
   ∃ m, is_min m (dist_at st.1 <$> out u) ∧
        (relax_value st u).1 = <[u := dist_at st.1 u `min` (1 + m)]> st.1).
Proof.
  intros Hc Hu. unfold relax_value.
  destruct (out u) as [|v nb] eqn:Hout; [done|].
  split; [done|]. intros _.
  pose proof (is_min_foldl (dist_at st.1 v) (dist_at st.1 <$> nb)) as Hmin.
  set (comp := foldl Nat.min (dist_at st.1 v) (dist_at st.1 <$> nb)) in *.
  exists comp. split; [done|]. simpl. case_decide as Hlt; simpl.
  - f_equal. lia.
  - rewrite insert_id; [done|]. rewrite (covers_lookup _ u Hc Hu). f_equal. lia.
Qed.

(** The dicts a round goes through: [trace !! i] is the dict after the
    step on the [i]-th vertex of [l], which starts from the dict before
    it. *)
Lemma round_value_trace l st :
  (∀ u, u ∈ l → u ∈ Pverts) → covers st.1 →
  ∃ trace : list (gmap K nat),
    length trace = length l ∧
    last (st.1 :: trace) = Some (round_value l st).1 ∧
    ∀ i u, l !! i = Some u →
      ∃ di di', (st.1 :: trace) !! i = Some di ∧ trace !! i = Some di' ∧
        (out u = [] → di' = di) ∧
        (out u ≠ [] →
         ∃ m, is_min m (dist_at di <$> out u) ∧
              di' = <[u := dist_at di u `min` (1 + m)]> di).
Proof.
  revert st. induction l as [|w l IH]; intros st Hsub Hc.
  - exists []. split; [done|]. split; [done|]. intros i u Hi. done.
  - destruct (IH (relax_value st w)) as (tr & Hlen & Hlast & Hsteps).
    { intros u Hu. apply Hsub. by right. }
    { by apply covers_relax_value. }
    exists ((relax_value st w).1 :: tr). split; [simpl; by rewrite Hlen|].
    split; [done|]. intros [|i] u Hi; simpl in Hi.
    + injection Hi as <-. exists st.1, (relax_value st w).1.
      split; [done|]. split; [done|].
      apply relax_value_formula; [done|]. apply Hsub. left.
    + destruct (Hsteps i u Hi) as (di & di' & Hdi & Hdi' & Hform).
      by exists di, di'.
Qed.

(** *** The flag records whether the round changed the dict *)

Lemma relax_value_flag_true st u :
  (relax_value st u).2 = true → relax_value st u = st.
Proof.
  unfold relax_value. destruct (out u) as [|v nb]; [done|].
  simpl. by case_decide.
Qed.

Lemma round_value_flag_true l st :
  (round_value l st).2 = true → round_value l st = st.
Proof.
  revert st. induction l as [|u l IH]; intros st Hf; simpl in *; [done|].
  rewrite (IH _ Hf). apply relax_value_flag_true.
  by rewrite <-(IH _ Hf).
Qed.

Lemma relax_value_flag_false st u :
  (relax_value st u).2 = false →
  st.2 = false ∨ dist_at (relax_value st u).1 u < dist_at st.1 u.
Proof.
  unfold relax_value. destruct (out u) as [|v nb]; [by left|].
  simpl. case_decide as Hlt; simpl; [|by left].
  intros _. right. unfold dist_at at 1. rewrite lookup_insert_eq. simpl. lia.
Qed.

Lemma round_value_flag_false l st :
  (round_value l st).2 = false →
  st.2 = false ∨ ∃ x, dist_at (round_value l st).1 x < dist_at st.1 x.
Proof.
  revert st. induction l as [|u l IH]; intros st Hf; simpl in *; [by left|].
  destruct (IH _ Hf) as [Hf'|[x Hx]].
  - destruct (relax_value_flag_false _ _ Hf') as [?|Hlt]; [by left|].
    right. exists u. eapply Nat.le_lt_trans; [apply round_value_le | done].
  - right. exists x. eapply Nat.lt_le_trans; [done | apply relax_value_le].
Qed.

(** A round that changes no distance leaves the flag set. *)
Lemma round_value_unchanged d :
  (round_value Pverts (d, true)).1 = d → round_value Pverts (d, true) = (d, true).
Proof.
  intros Hd. destruct (round_value Pverts (d, true)) as [d' b'] eqn:Hr.
  simpl in Hd. subst d'. destruct b'; [done|].
  destruct (round_value_flag_false Pverts (d, true)) as [?|[x Hx]];
    [by rewrite Hr | done |].
  rewrite Hr in Hx. simpl in Hx. lia.
Qed.

End RelaxerTheory.

(** ** Walks to the sink and what the loop computes *)

Section ShortestPaths.
Context `{Countable K}.

Variable Pverts : list K.
Variable dir_neighbors : gmap K (list K).
Variable sink : K.

Local Abbreviation outs := (out dir_neighbors).
Local Abbreviation round_of := (round_value dir_neighbors).
Local Abbreviation loop_of := (loop_value Pverts dir_neighbors).
Local Abbreviation graph_ok := (digraph_on Pverts dir_neighbors).

Local Abbreviation reach := (reach dir_neighbors sink).
Local Abbreviation sound := (sound Pverts dir_neighbors sink).
Local Abbreviation progress := (progress dir_neighbors sink).
Local Abbreviation final_distances := (final_distances Pverts dir_neighbors sink).
Local Abbreviation edge := (edge dir_neighbors).
Local Abbreviation acyclic := (acyclic dir_neighbors).
Local Abbreviation unique_sink := (unique_sink Pverts dir_neighbors sink).
Local Abbreviation is_dist := (is_dist dir_neighbors sink).

Lemma out_cons_Pverts u v : graph_ok → v ∈ outs u → u ∈ Pverts ∧ v ∈ Pverts.
Proof.
  intros Hg Hv. split; [|by apply (dg_edges _ _ Hg u)].
  apply (dg_keys _ _ Hg). unfold out in Hv.
  destruct (dir_neighbors !! u); [eauto|]. by apply elem_of_nil in Hv.
Qed.

Lemma sound_relax_value st u :
  graph_ok → sound st.1 → sound (relax_value dir_neighbors st u).1.
Proof.
  intros Hg Hs. unfold relax_value.
  destruct (out dir_neighbors u) as [|v nb] eqn:Hout; [done|].
  simpl. case_decide as Hlt; [|done]. simpl.
  pose proof (foldl_min_elem (dist_at st.1 v) (dist_at st.1 <$> nb)) as Hel.
  change (dist_at st.1 v :: (dist_at st.1 <$> nb))
    with (dist_at st.1 <$> (v :: nb)) in Hel.
  apply list_elem_of_fmap in Hel as (w & Hw & Hwin).
  rewrite <-Hout in Hwin. rewrite Hw in Hlt |- *.
  destruct (out_cons_Pverts u w Hg Hwin) as [Hu Hwp].
  intros x Hx. destruct (decide (u = x)) as [->|Hne].
  - rewrite dist_at_insert_eq.
    destruct (Hs x Hx) as [Hle _]. split; [lia|]. right.
    replace (dist_at st.1 w + 1) with (S (dist_at st.1 w)) by lia.
    apply reach_edge with w; [done|].
    destruct (Hs w Hwp) as [Hlew [Heq|Hr]]; [lia | done].
  - rewrite dist_at_insert_ne by done. apply (Hs x Hx).
Qed.

Lemma sound_round_value l st :
  graph_ok → sound st.1 → sound (round_of l st).1.
Proof.
  intros Hg. revert st. induction l as [|u l IH]; intros st Hs; simpl; [done|].
  apply IH. by apply sound_relax_value.
Qed.

Lemma sound_loop_value fuel d b r :
  graph_ok → sound d → sound (loop_of fuel d b r).1.
Proof.
  intros Hg. revert d b r.
  induction fuel as [|fuel IH]; intros d b r Hs; simpl; [done|].
  destruct b; [done|]. apply IH. by apply sound_round_value.
Qed.

Lemma progress_weaken k k' d : k' ≤ k → progress k d → progress k' d.
Proof. intros Hk Hp u j Hr Hj. apply Hp; [done | lia]. Qed.

Lemma progress_round k d b :
  graph_ok → progress k d → progress (S k) (round_of Pverts (d, b)).1.
Proof.
  intros Hg Hp u j Hr Hj. inversion Hr as [|n u' v Hv Hrv]; subst.
  - etrans; [apply round_value_le|]. simpl. apply Hp; [done | lia].
  - destruct (out_cons_Pverts u v Hg Hv) as [Hu _].
    etrans; [by apply round_value_edge|]. simpl.
    apply le_n_S, Hp; [done | lia].
Qed.

Lemma progress_stable k d :
  graph_ok → progress k d →
  round_of Pverts (d, true) = (d, true) → ∀ k', progress k' d.
Proof.
  intros Hg Hp Hst k'. induction k' as [|k' IH].
  - apply (progress_weaken k); [lia | done].
  - pose proof (progress_round k' d true Hg IH) as Hp'.
    by rewrite Hst in Hp'.
Qed.

Lemma progress_loop fuel d b r k :
  graph_ok → progress k d →
  (b = true → ∀ k', progress k' d) →
  progress (k + fuel) (loop_of fuel d b r).1.
Proof.
  intros Hg. revert d b r k.
  induction fuel as [|fuel IH]; intros d b r k Hp Hb; simpl.
  - by rewrite Nat.add_0_r.
  - destruct b; [by apply Hb|].
    replace (k + S fuel) with (S k + fuel) by lia.
    apply IH; [by apply progress_round|].
    intros Hflag. apply (progress_stable (S k)); [done | | ].
    + by apply progress_round.
    + pose proof (round_value_flag_true dir_neighbors Pverts (d, true) Hflag) as Heq.
      rewrite !Heq. done.
Qed.

(** *** The initial dict *)

Lemma lookup_foldl_insert (c : nat) l (m : gmap K nat) x :
  foldl (λ d u, <[u := c]> d) m l !! x = if decide (x ∈ l) then Some c else m !! x.
Proof.
  revert m. induction l as [|y l IH]; intros m; simpl.
  - done.
  - rewrite IH. destruct (decide (x ∈ l)) as [Hin|Hnin].
    + rewrite decide_True; [done | by right].
    + destruct (decide (y = x)) as [->|Hne].
      * rewrite lookup_insert_eq. rewrite decide_True; [done | left].
      * rewrite lookup_insert_ne by done.
        rewrite decide_False; [done|]. rewrite elem_of_cons. by intros [?|?].
Qed.

Lemma init_distances_lookup x :
  init_distances Pverts sink !! x =
    if decide (x = sink) then Some 0
    else if decide (x ∈ Pverts) then Some (length Pverts) else None.
Proof.
  unfold init_distances. case_decide as Heq.
  - subst. apply lookup_insert_eq.
  - rewrite lookup_insert_ne by done. rewrite lookup_foldl_insert.
    by rewrite lookup_empty.
Qed.

Lemma covers_init : covers Pverts (init_distances Pverts sink).
Proof.
  intros u Hu. rewrite init_distances_lookup.
  case_decide; [eauto|]. rewrite decide_True by done. eauto.
Qed.

Lemma sound_init : sound (init_distances Pverts sink).
Proof.
  intros x Hx. unfold dist_at. rewrite init_distances_lookup.
  case_decide as Heq; simpl.
  - subst. split; [lia|]. right. constructor.
  - rewrite decide_True by done. simpl. split; [done | by left].
Qed.

Lemma progress_init : progress 0 (init_distances Pverts sink).
Proof.
  intros u j Hr Hj. assert (j = 0) as -> by lia.
  assert (u = sink) as -> by (by inversion Hr).
  unfold dist_at. rewrite init_distances_lookup.
  by rewrite decide_True.
Qed.

(** *** The final dict *)

Lemma final_sound : graph_ok → sound final_distances.
Proof. intros Hg. apply sound_loop_value; [done | apply sound_init]. Qed.

Lemma final_covers : covers Pverts final_distances.
Proof. apply covers_loop_value, covers_init. Qed.

(** No walk to the sink is shorter than the stored distance. *)
Lemma final_upper u j :
  graph_ok → u ∈ Pverts → reach j u → dist_at final_distances u ≤ j.
Proof.
  intros Hg Hu Hr. destruct (decide (j ≤ length Pverts)) as [Hj|Hj].
  - apply (progress_loop (length Pverts) _ false 0 0 Hg progress_init); [done..|lia].
  - destruct (final_sound Hg u Hu) as [Hle _]. lia.
Qed.

(** The loop always ends on a dict that a further round leaves alone. *)
Lemma final_stable :
  graph_ok →
  round_of Pverts (final_distances, true) = (final_distances, true).
Proof.
  intros Hg. unfold round_value.
  assert (∀ l, (∀ u, u ∈ l → u ∈ Pverts) →
    foldl (relax_value dir_neighbors) (final_distances, true) l
    = (final_distances, true)) as Hl; [|by apply Hl].
  induction l as [|u l IH]; intros Hsub; simpl; [done|].
  assert (relax_value dir_neighbors (final_distances, true) u
          = (final_distances, true)) as ->.
  { unfold relax_value.
    destruct (out dir_neighbors u) as [|v nb] eqn:Hout; [done|].
    simpl. case_decide as Hlt; [|done]. exfalso.
    pose proof (foldl_min_elem (dist_at final_distances v)
                  (dist_at final_distances <$> nb)) as Hel.
    change (dist_at final_distances v :: (dist_at final_distances <$> nb))
      with (dist_at final_distances <$> (v :: nb)) in Hel.
    apply list_elem_of_fmap in Hel as (w & Hw & Hwin).
    rewrite <-Hout in Hwin. rewrite Hw in Hlt.
    destruct (out_cons_Pverts u w Hg Hwin) as [Hu Hwp].
    destruct (final_sound Hg u Hu) as [Hleu _].
    destruct (final_sound Hg w Hwp) as [Hlew [Heq|Hr]]; [lia|].
    pose proof (final_upper u (S (dist_at final_distances w)) Hg Hu
                  (reach_edge _ _ _ _ _ Hwin Hr)). lia. }
  apply IH. intros x Hx. apply Hsub. by right.
Qed.

(** Vertices outside the graph never get an entry. *)
Lemma relax_value_None st u x :
  graph_ok → x ∉ Pverts → st.1 !! x = None →
  (relax_value dir_neighbors st u).1 !! x = None.
Proof.
  intros Hg Hx Hn. unfold relax_value.
  destruct (out dir_neighbors u) as [|v nb] eqn:Hout; [done|].
  simpl. case_decide; [|done]. simpl.
  rewrite lookup_insert_ne; [done|]. intros ->. apply Hx.
  apply (out_cons_Pverts x v Hg). rewrite Hout. left.
Qed.

Lemma round_value_None l st x :
  graph_ok → x ∉ Pverts → st.1 !! x = None → (round_of l st).1 !! x = None.
Proof.
  intros Hg Hx. revert st. induction l as [|u l IH]; intros st Hn; simpl; [done|].
  apply IH. by apply relax_value_None.
Qed.

Lemma loop_value_None fuel d b r x :
  graph_ok → x ∉ Pverts → d !! x = None → (loop_of fuel d b r).1 !! x = None.
Proof.
  intros Hg Hx. revert d b r.
  induction fuel as [|fuel IH]; intros d b r Hn; simpl; [done|].
  destruct b; [done|]. apply IH. by apply round_value_None.
Qed.

Lemma final_None x :
  graph_ok → x ∉ Pverts → x ≠ sink → final_distances !! x = None.
Proof.
  intros Hg Hx Hs. apply loop_value_None; [done..|].
  rewrite init_distances_lookup. by rewrite !decide_False.
Qed.

(** *** Acyclic graphs with a unique sink *)

(** Following out-edges from [u] never revisits a vertex, so it ends at
    the sink before the vertices run out. *)
Lemma reach_within n visited u :
  graph_ok → acyclic → (∀ u, u ∈ Pverts → outs u = [] → u = sink) →
  NoDup visited →
  (∀ w, w ∈ visited → w ∈ Pverts ∧ tc edge w u) →
  u ∈ Pverts →
  length visited + n = length Pverts →
  ∃ k, reach k u ∧ k < n.
Proof.
  intros Hg Hac Hus. revert visited u.
  induction n as [|n IH]; intros visited u Hnd Hvis Hu Hlen.
  - exfalso.
    assert (u ∉ visited) as Hnin.
    { intros Hin. apply (Hac u). by apply Hvis. }
    assert (length (u :: visited) ≤ length Pverts) as Hle.
    { apply submseteq_length, NoDup_submseteq; [by constructor|].
      intros w [->|Hw]%elem_of_cons; [done|]. by apply Hvis. }
    simpl in Hle. lia.
  - destruct (out dir_neighbors u) as [|v nb] eqn:Hout.
    { rewrite (Hus u Hu Hout). exists 0. split; [constructor | lia]. }
    assert (edge u v) as Huv. { unfold edge. rewrite Hout. left. }
    destruct (IH (u :: visited) v) as (k & Hk & Hlt).
    + constructor; [|done]. intros Hin. apply (Hac u). by apply Hvis.
    + intros w [->|Hw]%elem_of_cons.
      * split; [done | by apply tc_once].
      * destruct (Hvis w Hw) as [Hwp Htc]. split; [done|].
        eapply tc_r; done.
    + by apply (dg_edges _ _ Hg u).
    + simpl. lia.
    + exists (S k). split; [by apply reach_edge with v | lia].
Qed.

Lemma reach_exists u :
  graph_ok → acyclic → unique_sink → u ∈ Pverts →
  ∃ k, reach k u ∧ k < length Pverts.
Proof.
  intros Hg Hac [_ Hus] Hu. apply (reach_within _ []); try done.
  - intros w Hw Hout. by apply Hus.
  - constructor.
  - intros w Hw. by apply elem_of_nil in Hw.
Qed.

Lemma reach_in_graph k u : graph_ok → reach k u → u = sink ∨ u ∈ Pverts.
Proof.
  intros Hg Hr. inversion Hr as [|n u' v Hv _]; subst; [by left|].
  right. by apply (out_cons_Pverts u v).
Qed.

Lemma is_dist_unique u k k' : is_dist u k → is_dist u k' → k = k'.
Proof. intros [Hr Hm] [Hr' Hm']. apply Nat.le_antisymm; auto. Qed.

(** In an acyclic graph with a unique sink the loop computes the
    shortest distances. *)
Lemma final_is_dist u :
  graph_ok → acyclic → unique_sink → u ∈ Pverts →
  is_dist u (dist_at final_distances u).
Proof.
  intros Hg Hac Hus Hu.
  destruct (reach_exists u Hg Hac Hus Hu) as (k & Hk & Hlt).
  pose proof (final_upper u k Hg Hu Hk) as Hle.
  destruct (final_sound Hg u Hu) as [_ [Heq|Hr]]; [lia|].
  split; [done|]. intros j Hj. by apply final_upper.
Qed.

End ShortestPaths.

(** ** The reference: breadth-first search from the sink, edges reversed *)

Section ReferenceBFS.
Context `{Countable K}.

Variable Pverts : list K.
Variable dir_neighbors : gmap K (list K).
Variable sink : K.

Local Abbreviation outs := (out dir_neighbors).
Local Abbreviation graph_ok := (digraph_on Pverts dir_neighbors).
Local Abbreviation walk := (reach dir_neighbors sink).

Local Abbreviation rev_neighbors := (rev_neighbors Pverts dir_neighbors).
Local Abbreviation bfs_next := (bfs_next Pverts dir_neighbors).
Local Abbreviation bfs_levels := (bfs_levels Pverts dir_neighbors).
Local Abbreviation bfs_reference := (bfs_reference Pverts dir_neighbors sink).
Local Abbreviation bfs_inv := (bfs_inv dir_neighbors sink).

Lemma elem_of_bfs_next frontier dist u :
  u ∈ bfs_next frontier dist ↔
  dist !! u = None ∧ u ∈ Pverts ∧ ∃ v, v ∈ frontier ∧ v ∈ outs u.
Proof.
  unfold bfs_next. rewrite elem_of_remove_dups, list_elem_of_filter.
  rewrite list_elem_of_bind. unfold rev_neighbors.
  setoid_rewrite list_elem_of_filter. split.
  - intros (Hn & v & [Hv Hu] & Hf). eauto.
  - intros (Hn & Hu & v & Hf & Hv). eauto.
Qed.

Lemma lookup_foldr_insert (c : nat) l (m : gmap K nat) x :
  foldr (λ u, <[u := c]>) m l !! x = if decide (x ∈ l) then Some c else m !! x.
Proof.
  induction l as [|y l IH]; simpl; [done|].
  destruct (decide (y = x)) as [->|Hne].
  - rewrite lookup_insert_eq. rewrite decide_True; [done | left].
  - rewrite lookup_insert_ne by done. rewrite IH.
    destruct (decide (x ∈ l)) as [Hin|Hnin].
    + rewrite decide_True; [done | by right].
    + rewrite decide_False; [done|]. rewrite elem_of_cons. by intros [?|?].
Qed.

Lemma bfs_inv_init : bfs_inv 0 [sink] {[sink := 0]}.
Proof.
  split.
  - intros u k [<- <-]%lookup_singleton_Some.
    split; [done|]. split; [constructor | lia].
  - intros u j Hw Hj. assert (j = 0) as -> by lia.
    inversion Hw; subst. rewrite lookup_singleton_eq. eauto.
  - intros u. rewrite list_elem_of_singleton, lookup_singleton_Some.
    split; [by intros -> | by intros [-> _]].
Qed.

Lemma bfs_inv_step lvl frontier dist :
  graph_ok → bfs_inv lvl frontier dist →
  bfs_inv (S lvl) (bfs_next frontier dist)
    (foldr (λ u, <[u := S lvl]>) dist (bfs_next frontier dist)).
Proof.
  intros Hg [Hs Hc Hf]. split.
  - intros u k. rewrite lookup_foldr_insert. case_decide as Hin.
    + intros [= <-]. apply elem_of_bfs_next in Hin as (Hn & Hu & v & Hv & Hvu).
      apply Hf in Hv. destruct (Hs v lvl Hv) as (_ & Hw & _).
      split; [done|]. split; [by apply reach_edge with v|].
      intros j Hj. destruct (decide (j ≤ lvl)) as [Hle|]; [|lia].
      destruct (Hc u j Hj Hle) as [k Hk]. congruence.
    + intros Hk. destruct (Hs u k Hk) as (? & ? & ?). split; [lia | done].
  - intros u j Hw Hj. rewrite lookup_foldr_insert.
    case_decide as Hin; [eauto|].
    destruct (decide (j ≤ lvl)) as [Hle|Hgt]; [by apply (Hc u j)|].
    assert (j = S lvl) as -> by lia.
    inversion Hw as [|n u' v Hvu Hwv]; subst.
    destruct (Hc v lvl Hwv) as [k Hk]; [done|].
    destruct (Hs v k Hk) as (Hkl & Hwk & Hmin).
    destruct (decide (k = lvl)) as [->|Hne].
    * destruct (dist !! u) as [ku|] eqn:Hu; [eauto|].
      exfalso. apply Hin. apply elem_of_bfs_next.
      split; [done|]. split.
      { by apply (out_cons_Pverts Pverts dir_neighbors u v). }
      exists v. split; [by apply Hf | done].
    * apply (Hc u (S k)); [by apply reach_edge with v | lia].
  - intros u. rewrite lookup_foldr_insert. case_decide as Hin; [done|].
    split; [done|]. intros Hk. destruct (Hs u _ Hk) as (? & _). lia.
Qed.

(** When no new vertex is found, every vertex with a walk has a distance. *)
Lemma bfs_inv_done lvl frontier dist u j :
  graph_ok → bfs_inv lvl frontier dist → bfs_next frontier dist = [] →
  walk j u → is_Some (dist !! u).
Proof.
  intros Hg [Hs Hc Hf] Hnext Hw. induction Hw as [|n u v Hvu Hwv IH].
  - apply (Hc sink 0); [constructor | lia].
  - destruct IH as [k Hk]. destruct (Hs v k Hk) as (Hkl & Hwk & Hmin).
    destruct (decide (k = lvl)) as [->|Hne].
    + destruct (dist !! u) as [ku|] eqn:Hu; [eauto|].
      exfalso. assert (u ∈ bfs_next frontier dist) as Hin.
      { apply elem_of_bfs_next. split; [done|]. split.
        { by apply (out_cons_Pverts Pverts dir_neighbors u v). }
        exists v. split; [by apply Hf | done]. }
      rewrite Hnext in Hin. by apply elem_of_nil in Hin.
    + apply (Hc u (S k)); [by apply reach_edge with v | lia].
Qed.

Lemma bfs_levels_spec fuel lvl frontier dist :
  graph_ok → bfs_inv lvl frontier dist →
  (∀ u k, bfs_levels fuel lvl frontier dist !! u = Some k →
     is_dist dir_neighbors sink u k) ∧
  (∀ u j, walk j u → j ≤ lvl + fuel →
     is_Some (bfs_levels fuel lvl frontier dist !! u)).
Proof.
  intros Hg. revert lvl frontier dist.
  induction fuel as [|fuel IH]; intros lvl frontier dist Hinv; simpl.
  - split.
    + intros u k Hk. by destruct (inv_sound _ _ _ _ _ Hinv u k Hk) as (_ & ? & ?).
    + intros u j Hw Hj. apply (inv_complete _ _ _ _ _ Hinv u j); [done | lia].
  - destruct (bfs_next frontier dist) as [|x next] eqn:Hnext.
    + split.
      * intros u k Hk. by destruct (inv_sound _ _ _ _ _ Hinv u k Hk) as (_ & ? & ?).
      * intros u j Hw _. by apply (bfs_inv_done lvl frontier dist u j).
    + pose proof (bfs_inv_step lvl frontier dist Hg Hinv) as Hinv'.
      rewrite Hnext in Hinv'. destruct (IH _ _ _ Hinv') as [Hs Hc].
      split; [done|]. intros u j Hw Hj. apply (Hc u j Hw). lia.
Qed.

Lemma bfs_reference_sound u k :
  graph_ok → bfs_reference !! u = Some k → is_dist dir_neighbors sink u k.
Proof. intros Hg. apply bfs_levels_spec; [done | apply bfs_inv_init]. Qed.

Lemma bfs_reference_complete u j :
  graph_ok → walk j u → j ≤ length Pverts → is_Some (bfs_reference !! u).
Proof.
  intros Hg Hw Hj.
  by apply (proj2 (bfs_levels_spec _ 0 _ _ Hg bfs_inv_init) u j).
Qed.

End ReferenceBFS.

(** ** Stored distances never grow *)

Section Monotone.
Context `{Countable K}.

Variable Pverts : list K.
Variable dir_neighbors : gmap K (list K).

Local Abbreviation dict_le := (@dict_le K _ _).

Lemma dict_le_refl d : dict_le d d.
Proof. intros x k Hx. eauto. Qed.

Lemma dict_le_trans d1 d2 d3 : dict_le d1 d2 → dict_le d2 d3 → dict_le d1 d3.
Proof.
  intros H12 H23 x k Hx. destruct (H23 x k Hx) as (k2 & Hk2 & Hle2).
  destruct (H12 x k2 Hk2) as (k1 & Hk1 & Hle1). exists k1. split; [done | lia].
Qed.

Lemma relax_step_le st u st' :
  relax_step dir_neighbors st u = Ok st' → dict_le st'.1 st.1.
Proof.
  destruct st as [d b]. unfold relax_step.
  destruct (getitem dir_neighbors u) as [nb|]; simpl; [|done].
  destruct nb as [|v nb]; [intros [= <-]; apply dict_le_refl|].
  destruct (comprehension (getitem d) (v :: nb)) as [ds|]; simpl; [|done].
  destruct (py_min ds) as [comp|]; simpl; [|done].
  destruct (getitem d u) as [du|] eqn:Hdu; simpl; [|done].
  apply getitem_Ok in Hdu.
  case_decide as Hlt; intros [= <-]; simpl; [|apply dict_le_refl].
  intros x k Hx. destruct (decide (u = x)) as [->|Hne].
  - rewrite lookup_insert_eq. exists (comp + 1). split; [done|].
    rewrite Hdu in Hx. injection Hx as <-. lia.
  - rewrite lookup_insert_ne by done. eauto.
Qed.

Lemma for_each_relax_le l st st' :
  for_each (relax_step dir_neighbors) l st = Ok st' → dict_le st'.1 st.1.
Proof.
  revert st. induction l as [|u l IH]; intros st; simpl.
  - intros [= <-]. apply dict_le_refl.
  - intros (st1 & Hst1 & Hrest)%bind_Ok.
    eapply dict_le_trans; [by apply IH | by eapply relax_step_le].
Qed.

Lemma relax_loop_le fuel d b r d' r' :
  relax_loop Pverts dir_neighbors fuel d b r = Ok (d', r') → dict_le d' d.
Proof.
  revert d b r. induction fuel as [|fuel IH]; intros d b r; simpl.
  - intros [= <- _]. apply dict_le_refl.
  - destruct b; [intros [= <- _]; apply dict_le_refl|].
    intros ([d1 b1] & Hround & Hloop)%bind_Ok.
    eapply dict_le_trans; [by eapply IH|].
    apply (for_each_relax_le _ _ _ Hround).
Qed.

End Monotone.

(** C8: across the relaxation, every vertex's entry in the distance map is
    non-increasing.  No single step of the inner loop raises a stored
    distance or drops an entry, hence no round does, and neither does the
    whole loop. *)
Theorem distances_never_increase `{Countable K}
    (Pverts : list K) (dir_neighbors : gmap K (list K)) :
  (∀ d b u d' b' x k,
     relax_step dir_neighbors (d, b) u = Ok (d', b') →
     d !! x = Some k → ∃ k', d' !! x = Some k' ∧ k' ≤ k) ∧
  (∀ d d' b' x k,
     relax_round Pverts dir_neighbors d = Ok (d', b') →
     d !! x = Some k → ∃ k', d' !! x = Some k' ∧ k' ≤ k) ∧
  (∀ fuel d b r d' r' x k,
     relax_loop Pverts dir_neighbors fuel d b r = Ok (d', r') →
     d !! x = Some k → ∃ k', d' !! x = Some k' ∧ k' ≤ k).
Proof.
  split; [|split].
  - intros d b u d' b' x k Hstep. apply (relax_step_le _ _ _ _ Hstep).
  - intros d d' b' x k Hround. apply (for_each_relax_le _ _ _ _ Hround).
  - intros fuel d b r d' r' x k Hloop. apply (relax_loop_le _ _ _ _ _ _ _ _ Hloop).
Qed.

Lemma g3_out u v : v ∈ out g3 u → v < u ∧ u ∈ g3_verts.
Proof.
  unfold out, g3, g3_verts. rewrite !lookup_insert, lookup_empty.
  repeat case_decide; subst; simpl; rewrite ?elem_of_cons, ?elem_of_nil;
    intros Hv; intuition (subst; try lia; try (repeat constructor)).
Qed.

Lemma g3_digraph : digraph_on g3_verts g3.
Proof.
  split.
  - intros u. unfold g3, g3_verts. rewrite !lookup_insert, lookup_empty.
    rewrite !elem_of_cons, elem_of_nil.
    repeat case_decide; subst; split; intros Hu; eauto;
      try (destruct Hu as [? [=]]); intuition congruence.
  - intros u v Huv. destruct (g3_out u v Huv) as [Hlt Hu].
    unfold g3_verts in *. rewrite !elem_of_cons, elem_of_nil in Hu |- *. lia.
Qed.

(** Edges that descend along a strict order cannot close a cycle. *)
Lemma acyclic_of_rank `{Countable K} (dn : gmap K (list K)) (rank : K → nat) :
  (∀ u v, v ∈ out dn u → rank v < rank u) → acyclic dn.
Proof.
  intros Hrank u Htc.
  assert (∀ a b, tc (edge dn) a b → rank b < rank a) as Hlt.
  { intros a b Hab. induction Hab as [a b Hab|a b c Hab _ IH].
    - by apply Hrank.
    - etrans; [done | by apply Hrank]. }
  specialize (Hlt u u Htc). lia.
Qed.

Lemma g3_acyclic : acyclic g3.
Proof. apply (acyclic_of_rank g3 id). intros u v Huv. apply (g3_out u v Huv). Qed.

Lemma g3_unique_sink : unique_sink g3_verts g3 0.
Proof.
  split; [left|]. intros u Hu. unfold g3_verts in Hu.
  rewrite !elem_of_cons, elem_of_nil in Hu.
  destruct Hu as [->|[->|[->|[]]]]; vm_compute; split; intros; done.
Qed.

(** C3: for an acyclic directed graph with a unique sink on the vertices
    [Pverts], the distance map the relaxation loop produces (every vertex at
    [len(Pverts)], the sink at 0, then the rounds) is the distance map of
    the reference breadth-first search from the sink over the reverse
    graph. *)
Theorem relaxation_equals_reverse_bfs `{Countable K}
    (Pverts : list K) (dir_neighbors : gmap K (list K)) (sink : K) :
  digraph_on Pverts dir_neighbors →
  acyclic dir_neighbors →
  unique_sink Pverts dir_neighbors sink →
  relaxed_distances Pverts dir_neighbors sink
    = Ok (bfs_reference Pverts dir_neighbors sink).
Proof.
  intros Hg Hac Hus. unfold relaxed_distances.
  rewrite relax_loop_value by (done || apply covers_init). simpl.
  destruct (loop_value Pverts dir_neighbors (length Pverts)
              (init_distances Pverts sink) false 0) as [d r] eqn:Hloop.
  simpl. f_equal.
  assert (d = final_distances Pverts dir_neighbors sink) as ->.
  { unfold final_distances. by rewrite Hloop. }
  apply map_eq. intros u.
  destruct (decide (u ∈ Pverts)) as [Hu|Hu].
  - rewrite (covers_lookup Pverts _ u (final_covers _ _ _) Hu).
    pose proof (final_is_dist Pverts dir_neighbors sink u Hg Hac Hus Hu) as Hd.
    destruct (reach_exists Pverts dir_neighbors sink u Hg Hac Hus Hu)
      as (k & Hk & Hlt).
    destruct (bfs_reference_complete Pverts dir_neighbors sink u k Hg Hk)
      as [k' Hk']; [lia|].
    rewrite Hk'. f_equal.
    apply (is_dist_unique dir_neighbors sink u); [done|].
    by apply (bfs_reference_sound Pverts).
  - assert (u ≠ sink) as Hne. { intros ->. by destruct Hus. }
    rewrite final_None by done.
    destruct (bfs_reference Pverts dir_neighbors sink !! u) as [k|] eqn:Hk; [|done].
    apply (bfs_reference_sound Pverts _ _ _ _ Hg) in Hk as [Hr _].
    destruct (reach_in_graph Pverts _ _ _ _ Hg Hr); done.
Qed.

Lemma relaxation_equals_reverse_bfs_witness :
  relaxed_distances g3_verts g3 0 = Ok (bfs_reference g3_verts g3 0).
Proof.
  apply relaxation_equals_reverse_bfs;
    [apply g3_digraph | apply g3_acyclic | apply g3_unique_sink].
Defined.

(** C7: on a directed graph on the [N] vertices [Pverts] the relaxation
    loop ends after at most [N] rounds, on a map that a further round leaves
    alone and in which every vertex [u] with out-neighbours satisfies
    [distance[u] = min(distance[u], 1 + min(distance[v]))].  A step leaves a
    vertex without out-neighbours alone and gives a vertex [u] with
    out-neighbours [min(distance[u], 1 + min(distance[v]))] over its
    out-neighbours [v].  A round never raises and runs that step on every
    vertex in turn, in place: [trace] lists the dict after each step, the
    [i]-th step takes the dict before it to the next by the update above
    for the [i]-th vertex, and the last dict is the round's result.  So no
    distance grows, afterwards every vertex is at most one more than what
    each of its out-neighbours had before the round, a distance that went
    down is one more than what some out-neighbour had at that moment, and
    the flag is set exactly when no distance changed.  A round that changes
    no distance is the last one. *)
Theorem relaxation_rounds_and_fixpoint `{Countable K}
    (Pverts : list K) (dir_neighbors : gmap K (list K)) (sink : K) :
  digraph_on Pverts dir_neighbors →
  (∃ d rounds,
     relax_loop Pverts dir_neighbors (length Pverts)
       (init_distances Pverts sink) false 0 = Ok (d, rounds) ∧
     rounds ≤ length Pverts ∧
     relax_round Pverts dir_neighbors d = Ok (d, true) ∧
     ∀ u, u ∈ Pverts → out dir_neighbors u ≠ [] →
       ∃ m, is_min m (dist_at d <$> out dir_neighbors u) ∧
            dist_at d u = dist_at d u `min` (1 + m)) ∧
  (∀ d u b, covers Pverts d → u ∈ Pverts →
     ∃ d' b', relax_step dir_neighbors (d, b) u = Ok (d', b') ∧
       (out dir_neighbors u = [] → d' = d) ∧
       (out dir_neighbors u ≠ [] →
        ∃ m, is_min m (dist_at d <$> out dir_neighbors u) ∧
             d' = <[u := dist_at d u `min` (1 + m)]> d)) ∧
  (∀ d, relax_round Pverts dir_neighbors d
        = for_each (relax_step dir_neighbors) Pverts (d, true)) ∧
  (∀ d, covers Pverts d →
     ∃ d' b' (trace : list (gmap K nat)),
       relax_round Pverts dir_neighbors d = Ok (d', b') ∧
       (d', b') = round_value dir_neighbors Pverts (d, true) ∧
       length trace = length Pverts ∧
       last (d :: trace) = Some d' ∧
       (∀ i u, Pverts !! i = Some u →
          ∃ di di', (d :: trace) !! i = Some di ∧ trace !! i = Some di' ∧
            (out dir_neighbors u = [] → di' = di) ∧
            (out dir_neighbors u ≠ [] →
             ∃ m, is_min m (dist_at di <$> out dir_neighbors u) ∧
                  di' = <[u := dist_at di u `min` (1 + m)]> di)) ∧
       covers Pverts d' ∧
       (∀ x, dist_at d' x ≤ dist_at d x) ∧
       (∀ u v, u ∈ Pverts → v ∈ out dir_neighbors u →
          dist_at d' u ≤ 1 + dist_at d v) ∧
       (∀ u, dist_at d' u < dist_at d u →
          u ∈ Pverts ∧
          ∃ v, v ∈ out dir_neighbors u ∧ 1 + dist_at d' v ≤ dist_at d' u) ∧
       (b' = true ↔ d' = d)) ∧
  (∀ fuel d r d' b', covers Pverts d →
     relax_round Pverts dir_neighbors d = Ok (d', b') → d' = d →
     relax_loop Pverts dir_neighbors (S fuel) d false r = Ok (d, S r)).
Proof.
  intros Hg. split; [|split; [|split; [|split]]].
  - pose proof (covers_init Pverts sink) as Hc.
    rewrite relax_loop_value by done.
    destruct (loop_value Pverts dir_neighbors (length Pverts)
                (init_distances Pverts sink) false 0) as [d r] eqn:Hloop.
    exists d, r. split; [done|].
    assert (d = final_distances Pverts dir_neighbors sink) as Hd.
    { unfold final_distances. by rewrite Hloop. }
    split.
    { pose proof (loop_value_rounds Pverts dir_neighbors (length Pverts)
                    (init_distances Pverts sink) false 0) as Hr.
      rewrite Hloop in Hr. simpl in Hr. done. }
    subst d. pose proof (final_stable Pverts dir_neighbors sink Hg) as Hst.
    split.
    { rewrite relax_round_value by (done || apply final_covers).
      by rewrite Hst. }
    intros u Hu Hout.
    set (d := final_distances Pverts dir_neighbors sink) in *.
    destruct (out dir_neighbors u) as [|v nb] eqn:Hnb; [done|].
    exists (foldl Nat.min (dist_at d v) (dist_at d <$> nb)).
    split; [apply is_min_foldl|].
    pose proof (foldl_min_elem (dist_at d v) (dist_at d <$> nb)) as Hel.
    change (dist_at d v :: (dist_at d <$> nb))
      with (dist_at d <$> (v :: nb)) in Hel.
    apply list_elem_of_fmap in Hel as (w & Hw & Hwin).
    rewrite Hw.
    pose proof (round_value_edge dir_neighbors Pverts (d, true) u w Hu) as He.
    rewrite Hst in He. simpl in He.
    assert (dist_at d u ≤ S (dist_at d w)) by (apply He; by rewrite Hnb).
    lia.
  - intros d u b Hc Hu. rewrite (relax_step_value Pverts) by done.
    unfold relax_value. simpl.
    destruct (out dir_neighbors u) as [|v nb] eqn:Hout.
    + exists d, b. split; [done|]. split; done.
    + pose proof (is_min_foldl (dist_at d v) (dist_at d <$> nb)) as Hmin.
      set (comp := foldl Nat.min (dist_at d v) (dist_at d <$> nb)) in *.
      case_decide as Hlt.
      * exists (<[u := comp + 1]> d), false. split; [done|].
        split; [done|]. intros _. exists comp. split; [done|].
        f_equal. lia.
      * exists d, b. split; [done|]. split; [done|]. intros _.
        exists comp. split; [done|].
        rewrite insert_id; [done|].
        rewrite (covers_lookup Pverts d u Hc Hu). f_equal. lia.
  - done.
  - intros d Hc.
    destruct (round_value dir_neighbors Pverts (d, true)) as [d' b'] eqn:Hr.
    destruct (round_value_trace Pverts dir_neighbors Pverts (d, true))
      as (trace & Hlen & Hlast & Hsteps); [done..|].
    exists d', b', trace.
    assert (d' = (round_value dir_neighbors Pverts (d, true)).1) as Hd'
      by (by rewrite Hr).
    split; [by rewrite relax_round_value, Hr|].
    split; [done|].
    split; [done|].
    split; [by rewrite Hd'|].
    split; [done|].
    split; [rewrite Hd'; by apply covers_round_value|].
    split; [intros x; rewrite Hd'; apply round_value_le|].
    split; [intros u v Hu Hv; rewrite Hd'; by apply round_value_edge|].
    split.
    { intros u Hlt. rewrite Hd' in Hlt |- *.
      by apply (round_value_realised dir_neighbors Pverts (d, true)). }
    split.
    + intros ->.
      pose proof (round_value_flag_true dir_neighbors Pverts (d, true)) as Hf.
      rewrite Hr in Hf. by injection (Hf eq_refl).
    + intros ->.
      pose proof (round_value_unchanged Pverts dir_neighbors d) as Hu.
      rewrite Hr in Hu. by injection (Hu eq_refl).
  - intros fuel d r d' b' Hc Hround ->. simpl.
    rewrite relax_round_value in Hround |- * by done.
    injection Hround as Hround.
    assert ((round_value dir_neighbors Pverts (d, true)).1 = d) as Hsame
      by (by rewrite Hround).
    rewrite (round_value_unchanged _ _ d Hsame). simpl.
    by destruct fuel.
Qed.

Lemma relaxation_rounds_and_fixpoint_witness :
  ∃ d rounds,
    relax_loop g3_verts g3 (length g3_verts) (init_distances g3_verts 0) false 0
      = Ok (d, rounds) ∧
    rounds ≤ length g3_verts ∧
    relax_round g3_verts g3 d = Ok (d, true) ∧
    ∀ u, u ∈ g3_verts → out g3 u ≠ [] →
      ∃ m, is_min m (dist_at d <$> out g3 u) ∧
           dist_at d u = dist_at d u `min` (1 + m).
Proof.
  exact (proj1 (relaxation_rounds_and_fixpoint g3_verts g3 0 g3_digraph)).
Defined.

Lemma distances_never_increase_witness :
  ∃ k', <[2 := 1]> (<[1 := 1]> (init_distances g3_verts 0)) !! 2 = Some k' ∧ k' ≤ 3.
Proof.
  apply (proj1 (proj2 (distances_never_increase g3_verts g3))
           (init_distances g3_verts 0) _ false 2 3).
  - vm_compute. reflexivity.
  - vm_compute. reflexivity.
Defined.

(** ** Rational arithmetic *)

Lemma Qc_eq_Qeq (x y : Qc) : x = y ↔ (this x == this y)%Q.
Proof. split; [by intros -> | apply Qc_is_canon]. Qed.

(** Linear arithmetic over [Qc], by moving to [Q]. *)
Ltac qc_lra :=
  rewrite ?Qc_eq_Qeq in *; unfold Qclt, Qcle in *; simpl in *;
  rewrite ?Qred_correct in *; lra.

Lemma Qc_sub_pos (a b : Qc) : (Q2Qc 0 < a - b)%Qc ↔ (b < a)%Qc.
Proof. split; intros; qc_lra. Qed.

Lemma Qc_opp_pos (a : Qc) : (Q2Qc 0 < - a)%Qc ↔ (a < Q2Qc 0)%Qc.
Proof. split; intros; qc_lra. Qed.

Lemma Qc_lt_irrefl (a : Qc) : ¬ (a < a)%Qc.
Proof. intros Ha. qc_lra. Qed.

Lemma Qc_lt_trans (a b c : Qc) : (a < b)%Qc → (b < c)%Qc → (a < c)%Qc.
Proof. intros. qc_lra. Qed.

Lemma Qc_le_lt_trans (a b c : Qc) : (a <= b)%Qc → (b < c)%Qc → (a < c)%Qc.
Proof. intros. qc_lra. Qed.

Lemma Qc_not_lt (a b : Qc) : ¬ (a < b)%Qc ↔ (b <= a)%Qc.
Proof. split; intros; [|intros ?]; qc_lra. Qed.

Lemma Qc_le_antisym (a b : Qc) : (a <= b)%Qc → (b <= a)%Qc → a = b.
Proof. intros. qc_lra. Qed.

Lemma Qc_self_opp (a : Qc) : a = (- a)%Qc → a = Q2Qc 0.
Proof. intros Ha. qc_lra. Qed.

Lemma Qc_sum_nonneg_zero (a b : Qc) :
  (Q2Qc 0 <= a)%Qc → (Q2Qc 0 <= b)%Qc → (a + b)%Qc = Q2Qc 0 →
  a = Q2Qc 0 ∧ b = Q2Qc 0.
Proof. intros. split; qc_lra. Qed.

(** ** Vectors *)

Lemma vneg_involutive (a : vector) : vneg (vneg a) = a.
Proof.
  unfold vneg. induction a as [|x a IH]; simpl; [done|].
  f_equal; [apply Qcopp_involutive | exact IH].
Qed.

Lemma vsub_swap (u v : vector) : vsub u v = vneg (vsub v u).
Proof.
  unfold vsub, vneg. revert v. induction u as [|x u IH]; intros [|y v]; simpl; try done.
  f_equal; [ring | apply IH].
Qed.

Lemma dot_vneg (a w : vector) : dot a (vneg w) = (- dot a w)%Qc.
Proof.
  unfold dot, vneg. revert w. induction a as [|x a IH]; intros [|y w]; simpl;
    try (apply Qc_is_canon; reflexivity).
  change (list_fmap Qc Qc Qcopp w) with (Qcopp <$> w).
  rewrite IH. ring.
Qed.

Lemma dot_vsub (a u v : vector) :
  length u = length v → dot a (vsub u v) = (dot a u - dot a v)%Qc.
Proof.
  unfold dot, vsub. revert u v.
  induction a as [|x a IH]; intros [|y u] [|z v] Hlen; simpl in *;
    try done; try (apply Qc_is_canon; reflexivity).
  rewrite IH by lia. ring.
Qed.

Lemma dot_vsub_swap (a u v : vector) : dot a (vsub u v) = (- dot a (vsub v u))%Qc.
Proof. by rewrite (vsub_swap u v), dot_vneg. Qed.

(** A vector with a non-zero 1-norm has a non-zero coordinate. *)
Lemma norm1_zero (a : vector) : (∀ x, x ∈ a → x = Q2Qc 0) → norm1 a = Q2Qc 0.
Proof.
  unfold norm1. induction a as [|x a IH]; intros Hz; simpl; [done|].
  rewrite (Hz x) by left.
  replace (Q2Qc 0 + Qcabs (Q2Qc 0))%Qc with (Q2Qc 0)
    by (apply Qc_is_canon; reflexivity).
  apply IH. intros y Hy. apply Hz. by right.
Qed.

Lemma vneg_fixed_zero (e : vector) : e = vneg e → ∀ x, x ∈ e → x = Q2Qc 0.
Proof.
  unfold vneg. induction e as [|y e IH]; intros Heq x Hx.
  - by apply elem_of_nil in Hx.
  - simpl in Heq. injection Heq as Hy He.
    apply elem_of_cons in Hx as [->|Hx]; [by apply Qc_self_opp | by apply IH].
Qed.

Lemma edge_dir_Ok u v e :
  edge_dir u v = Ok e ↔
  norm1 (vsub u v) ≠ Q2Qc 0 ∧
  e = (λ x, x / norm1 (vsub u v))%Qc <$> vsub u v.
Proof.
  unfold edge_dir, vdiv. case_decide as Hs.
  - split; [done | by intros [? _]].
  - split; [by intros [= <-] | by intros [_ ->]].
Qed.

(** A normalised direction differs from its negative. *)
Lemma edge_dir_not_self_opp u v e : edge_dir u v = Ok e → e ≠ vneg e.
Proof.
  intros [Hs ->]%edge_dir_Ok Heq. apply Hs, norm1_zero. intros x Hx.
  pose proof (vneg_fixed_zero _ Heq (x / norm1 (vsub u v))%Qc) as Hz.
  rewrite <-(Qcmult_div_r x (norm1 (vsub u v))) by done.
  rewrite Hz; [ring|]. by apply (list_elem_of_fmap_2 (λ x, x / _)%Qc).
Qed.

(** ** The sink scan *)

Section SinkScan.
Variable Pverts : list vector.

Lemma sink_loop_value a l st :
  ∃ q, for_each (sink_step (Vec a)) l st = Ok (scan_value a st.1 l, q).
Proof.
  revert st. induction l as [|v l IH]; intros [c q]; simpl.
  - by exists q.
  - unfold sink_step. simpl. case_decide; simpl.
    + apply (IH (v, dot a v)).
    + apply (IH (c, q)).
Qed.

Lemma find_sink_value a v0 rest :
  Pverts = v0 :: rest → find_sink Pverts (Vec a) = Ok (scan_value a v0 Pverts).
Proof.
  intros HP. unfold find_sink. rewrite HP. simpl.
  destruct (sink_loop_value a (v0 :: rest) (v0, dot a v0)) as [q Hq].
  simpl in Hq. by rewrite Hq.
Qed.

Lemma find_sink_Int0 : find_sink Pverts Int0 = Raise IndexError
                     ∨ find_sink Pverts Int0 = Raise AttributeError.
Proof. unfold find_sink. destruct Pverts; simpl; auto. Qed.

(** The scan ends on its start value if nothing beats it, and otherwise on
    the first element that all earlier ones stay strictly below. *)
Lemma scan_value_first a c l :
  (scan_value a c l = c ∧ ∀ v, v ∈ l → (dot a v <= dot a c)%Qc) ∨
  (∃ pre post, l = pre ++ scan_value a c l :: post ∧
     (dot a c < dot a (scan_value a c l))%Qc ∧
     ∀ v, v ∈ pre → (dot a v < dot a (scan_value a c l))%Qc).
Proof.
  revert c. induction l as [|v l IH]; intros c; simpl.
  - left. split; [done|]. intros v Hv. by apply elem_of_nil in Hv.
  - case_decide as Hlt.
    + right. destruct (IH v) as [[Heq Hle]|(pre & post & Hl & Hv & Hpre)].
      * exists [], l. rewrite Heq. split; [done|]. split; [done|].
        intros w Hw. by apply elem_of_nil in Hw.
      * exists (v :: pre), post. split; [simpl; by rewrite <-Hl|].
        split; [by eapply Qc_lt_trans|].
        intros w [->|Hw]%elem_of_cons; [done | by apply Hpre].
    + apply Qc_not_lt in Hlt.
      destruct (IH c) as [[Heq Hle]|(pre & post & Hl & Hc & Hpre)].
      * left. split; [done|].
        intros w [->|Hw]%elem_of_cons; [done | by apply Hle].
      * right. exists (v :: pre), post. split; [simpl; by rewrite <-Hl|].
        split; [done|].
        intros w [->|Hw]%elem_of_cons; [by eapply Qc_le_lt_trans | by apply Hpre].
Qed.

Lemma scan_value_ge a c l : (dot a c <= dot a (scan_value a c l))%Qc.
Proof.
  revert c. induction l as [|v l IH]; intros c; simpl.
  - unfold Qcle. apply Qle_refl.
  - case_decide as Hlt.
    + specialize (IH v). qc_lra.
    + apply IH.
Qed.

Lemma scan_value_max a c l v :
  v ∈ l → (dot a v <= dot a (scan_value a c l))%Qc.
Proof.
  revert c. induction l as [|w l IH]; intros c Hv.
  - by apply elem_of_nil in Hv.
  - simpl. apply elem_of_cons in Hv as [->|Hv]; [|by apply IH].
    case_decide as Hlt; [apply scan_value_ge|].
    pose proof (scan_value_ge a c l). qc_lra.
Qed.

Lemma scan_value_elem a c l : scan_value a c l = c ∨ scan_value a c l ∈ l.
Proof.
  destruct (scan_value_first a c l) as [[-> _]|(pre & post & Hl & _)]; [by left|].
  right. rewrite Hl at 2. apply elem_of_app. right. left.
Qed.

End SinkScan.

(** ** The directed graph of an orientation vector *)

Lemma lookup_foldl_insert_with `{Countable K} {A} (F : K → A) l (m : gmap K A) x :
  foldl (λ g u, <[u := F u]> g) m l !! x
    = if decide (x ∈ l) then Some (F x) else m !! x.
Proof.
  revert m. induction l as [|y l IH]; intros m; simpl; [done|].
  rewrite IH. destruct (decide (x ∈ l)) as [Hin|Hnin].
  - rewrite decide_True; [done | by right].
  - destruct (decide (y = x)) as [->|Hne].
    + rewrite lookup_insert_eq. rewrite decide_True; [done | left].
    + rewrite lookup_insert_ne by done.
      rewrite decide_False; [done|]. rewrite elem_of_cons. by intros [?|?].
Qed.

Lemma foldl_pair {A B C} (f : A → C → A) (g : B → C → B) l a b :
  foldl (λ st x, (f st.1 x, g st.2 x)) (a, b) l = (foldl f a l, foldl g b l).
Proof. revert a b. induction l as [|x l IH]; intros a b; simpl; [done | apply IH]. Qed.

Section DirectedGraph.
Variable Pverts : list vector.
Variable neighbors : vector → list vector.

Local Abbreviation out_list := (out_list neighbors).
Local Abbreviation dir_graph := (dir_graph Pverts neighbors).
Local Abbreviation neighbors_closed := (neighbors_closed Pverts neighbors).
Local Abbreviation same_dimension := (same_dimension Pverts).

Lemma orient_step_value (a u v : vector) (dn : gmap vector (list vector))
    (cur : list vector) :
  dn !! u = Some cur →
  orient_step (Vec a) u dn v
    = Ok (if decide (improving a u v) then <[u := cur ++ [v]]> dn else dn).
Proof.
  intros Hcur. unfold orient_step, improving. simpl.
  destruct (decide (Q2Qc 0 < dot a (vsub v u))%Qc) as [Hpos|Hpos].
  - by rewrite (getitem_Some _ _ _ Hcur).
  - done.
Qed.

Lemma orient_loop_value (a u : vector) (l : list vector)
    (dn : gmap vector (list vector)) (cur : list vector) :
  dn !! u = Some cur →
  for_each (orient_step (Vec a) u) l dn
    = Ok (<[u := cur ++ filter (improving a u) l]> dn).
Proof.
  revert dn cur. induction l as [|v l IH]; intros dn cur Hcur; simpl.
  - rewrite app_nil_r. by rewrite insert_id.
  - rewrite (orient_step_value a u v dn cur Hcur). simpl.
    destruct (decide (improving a u v)) as [Hpos|Hpos].
    + rewrite (IH _ (cur ++ [v])) by apply lookup_insert_eq.
      rewrite insert_insert_eq, <-app_assoc. simpl.
      by rewrite filter_cons_True.
    + rewrite (IH _ cur Hcur). by rewrite filter_cons_False.
Qed.

Lemma build_step_value (a : vector) st (u : vector) :
  build_step Pverts neighbors (Vec a) st u
    = Ok (<[u := length Pverts]> st.1, <[u := out_list a u]> st.2).
Proof.
  unfold build_step.
  rewrite (orient_loop_value a u _ _ []) by apply lookup_insert_eq.
  simpl. by rewrite insert_insert_eq.
Qed.

Lemma build_value a :
  build Pverts neighbors (Vec a)
    = Ok (foldl (λ d u, <[u := length Pverts]> d) ∅ Pverts, dir_graph a).
Proof.
  unfold build, dir_graph.
  rewrite <-(foldl_pair (λ d u, <[u := length Pverts]> d)
                        (λ g u, <[u := out_list a u]> g)).
  apply (for_each_total _ _ (λ _, True)); [|done].
  intros st u _ _. split; [apply build_step_value | done].
Qed.

Lemma dir_graph_lookup (a u : vector) :
  dir_graph a !! u = if decide (u ∈ Pverts) then Some (out_list a u) else None.
Proof. unfold dir_graph. by rewrite lookup_foldl_insert_with, lookup_empty. Qed.

Lemma out_dir_graph (a u : vector) :
  out (dir_graph a) u = if decide (u ∈ Pverts) then out_list a u else [].
Proof. unfold out. rewrite dir_graph_lookup. by case_decide. Qed.

Lemma elem_of_out_list (a u v : vector) :
  v ∈ out_list a u ↔ improving a u v ∧ v ∈ neighbors u.
Proof. unfold out_list. apply list_elem_of_filter. Qed.

Lemma dir_graph_digraph a : neighbors_closed → digraph_on Pverts (dir_graph a).
Proof.
  intros Hcl. split.
  - intros u. rewrite dir_graph_lookup. case_decide; split; intros Hu; eauto.
    + done.
    + by destruct Hu.
  - intros u v. rewrite out_dir_graph. case_decide as Hu.
    + intros [_ Hv]%elem_of_out_list. by apply (Hcl u).
    + intros Hv. by apply elem_of_nil in Hv.
Qed.

(** Along an edge of the directed graph the functional strictly grows. *)
Lemma dir_graph_edge_increases a n u v :
  neighbors_closed → same_dimension n →
  v ∈ out (dir_graph a) u → (dot a u < dot a v)%Qc.
Proof.
  intros Hcl Hdim. rewrite out_dir_graph. case_decide as Hu.
  - intros [Himp Hv]%elem_of_out_list. unfold improving in Himp.
    rewrite dot_vsub in Himp.
    + by apply Qc_sub_pos.
    + rewrite (Hdim u Hu). apply Hdim. by apply (Hcl u).
  - intros Hv. by apply elem_of_nil in Hv.
Qed.

Lemma dir_graph_acyclic a n :
  neighbors_closed → same_dimension n → acyclic (dir_graph a).
Proof.
  intros Hcl Hdim u Htc.
  assert (∀ x y, tc (edge (dir_graph a)) x y → (dot a x < dot a y)%Qc) as Hlt.
  { intros x y Hxy. induction Hxy as [x y Hxy|x y z Hxy _ IH].
    - by apply (dir_graph_edge_increases a n).
    - eapply Qc_lt_trans; [|done]. by apply (dir_graph_edge_increases a n). }
  by apply (Qc_lt_irrefl (dot a u)), Hlt.
Qed.

(** A vertex maximising the functional has no out-neighbour. *)
Lemma maximum_no_out a n s :
  neighbors_closed → same_dimension n → s ∈ Pverts →
  (∀ v, v ∈ Pverts → (dot a v <= dot a s)%Qc) →
  out_list a s = [].
Proof.
  intros Hcl Hdim Hs Hmax.
  destruct (out_list a s) as [|v l] eqn:Hout; [done|]. exfalso.
  assert (v ∈ out (dir_graph a) s) as Hv.
  { rewrite out_dir_graph, decide_True by done. rewrite Hout. left. }
  pose proof (dir_graph_edge_increases a n s v Hcl Hdim Hv) as Hlt.
  apply (dg_edges _ _ (dir_graph_digraph a Hcl)) in Hv.
  specialize (Hmax v Hv). qc_lra.
Qed.

End DirectedGraph.

(** Closes a goal about concrete data by evaluating its decision
    procedure. *)
Ltac by_compute := apply (bool_decide_unpack _); vm_compute; exact I.

(** C6: for an orientation vector [f] the loop of lines 94-101 returns a
    dict over the vertex set in which, for every vertex [u] and neighbour [v],
    the edge [u → v] is present iff [f·(v − u) > 0]; when [f·(v − u) ≠ 0],
    exactly one of [u → v] and [v → u] is present for the undirected edge
    [{u, v}]. *)
Theorem directed_graph_orientation
    (Pverts : list vector) (neighbors : vector → list vector) (f : vector) :
  ∃ distances dir_neighbors,
    build Pverts neighbors (Vec f) = Ok (distances, dir_neighbors) ∧
    (∀ u, u ∈ Pverts ↔ is_Some (dir_neighbors !! u)) ∧
    (∀ u v, u ∈ Pverts → v ∈ neighbors u →
       ((v ∈ out dir_neighbors u) ↔ (Q2Qc 0 < dot f (vsub v u))%Qc)) ∧
    (∀ u v, u ∈ Pverts → v ∈ Pverts → v ∈ neighbors u → u ∈ neighbors v →
       dot f (vsub v u) ≠ Q2Qc 0 →
       ((v ∈ out dir_neighbors u) ∧ (u ∉ out dir_neighbors v)) ∨
       ((v ∉ out dir_neighbors u) ∧ (u ∈ out dir_neighbors v))).
Proof.
  eexists _, (dir_graph Pverts neighbors f).
  split; [apply build_value|].
  assert (∀ u v, u ∈ Pverts → v ∈ neighbors u →
            ((v ∈ out (dir_graph Pverts neighbors f) u)
             ↔ (Q2Qc 0 < dot f (vsub v u))%Qc)) as Hedge.
  { intros u v Hu Hv. rewrite out_dir_graph, decide_True by done.
    rewrite elem_of_out_list. unfold improving. tauto. }
  split; [|split; [done|]].
  - intros u. rewrite dir_graph_lookup. case_decide; split; intros Hu; eauto.
    + done.
    + by destruct Hu.
  - intros u v Hu Hv Huv Hvu Hne.
    rewrite (Hedge u v Hu Huv), (Hedge v u Hv Hvu).
    rewrite (dot_vsub_swap f u v).
    destruct (decide (Q2Qc 0 < dot f (vsub v u))%Qc) as [Hpos|Hneg].
    + left. split; [done|]. intros Hopp. qc_lra.
    + right. split; [done|]. qc_lra.
Qed.

Lemma directed_graph_orientation_witness :
  ∃ distances dir_neighbors,
    build square square_neighbors (Vec f_generic) = Ok (distances, dir_neighbors) ∧
    (((sq10 ∈ out dir_neighbors sq00) ∧ (sq00 ∉ out dir_neighbors sq10)) ∨
     ((sq10 ∉ out dir_neighbors sq00) ∧ (sq00 ∈ out dir_neighbors sq10))).
Proof.
  destruct (directed_graph_orientation square square_neighbors f_generic)
    as (distances & dir_neighbors & Hbuild & _ & _ & Hone).
  exists distances, dir_neighbors. split; [exact Hbuild|].
  apply Hone; by_compute.
Defined.

(** C10: the vertex the scan selects as sink has an empty out-neighbour
    list in the directed graph built for [f], and its distance is 0 after any
    number of relaxation rounds.  All vertices lie in one space QQ^n and the
    neighbours of a vertex are vertices; genericity of [f] is not needed. *)
Theorem sink_has_no_out_neighbor
    (Pverts : list vector) (neighbors : vector → list vector) (f : vector)
    (n : nat) :
  Pverts ≠ [] →
  neighbors_closed Pverts neighbors →
  same_dimension Pverts n →
  ∃ sink distances dir_neighbors,
    find_sink Pverts (Vec f) = Ok sink ∧
    build Pverts neighbors (Vec f) = Ok (distances, dir_neighbors) ∧
    dir_neighbors !! sink = Some [] ∧
    ∀ fuel, ∃ distances' rounds,
      relax_loop Pverts dir_neighbors fuel (<[sink := 0]> distances) false 0
        = Ok (distances', rounds) ∧
      distances' !! sink = Some 0.
Proof.
  intros Hne Hcl Hdim. destruct Pverts as [|v0 rest] eqn:HP; [done|].
  rewrite <-HP in *.
  set (s := scan_value f v0 Pverts).
  assert (s ∈ Pverts) as Hs.
  { destruct (scan_value_elem f v0 Pverts) as [Heq|Hin]; [|done].
    unfold s. rewrite Heq, HP. left. }
  exists s, (foldl (λ d u, <[u := length Pverts]> d) ∅ Pverts),
    (dir_graph Pverts neighbors f).
  split; [by apply find_sink_value with rest|].
  split; [apply build_value|]. split.
  - rewrite dir_graph_lookup, decide_True by done. f_equal.
    apply (maximum_no_out Pverts neighbors f n); try done.
    intros v Hv. by apply scan_value_max.
  - intros fuel.
    pose proof (dir_graph_digraph Pverts neighbors f Hcl) as Hg.
    change (<[s := 0]> (foldl (λ d u, <[u := length Pverts]> d) ∅ Pverts))
      with (init_distances Pverts s).
    rewrite relax_loop_value by (done || apply covers_init).
    destruct (loop_value Pverts (dir_graph Pverts neighbors f) fuel
                (init_distances Pverts s) false 0) as [d' r] eqn:Hloop.
    exists d', r. split; [done|].
    assert (relax_loop Pverts (dir_graph Pverts neighbors f) fuel
              (init_distances Pverts s) false 0 = Ok (d', r)) as Hrun.
    { rewrite relax_loop_value by (done || apply covers_init). by rewrite Hloop. }
    destruct (relax_loop_le _ _ _ _ _ _ _ _ Hrun s 0) as (k & Hk & Hle).
    { rewrite init_distances_lookup. by rewrite decide_True. }
    rewrite Hk. f_equal. lia.
Qed.

Lemma segment_closed : neighbors_closed segment segment_neighbors.
Proof.
  assert (Forall (λ u, Forall (λ v, v ∈ segment) (segment_neighbors u)) segment)
    as Hall by by_compute.
  intros u v Hu Hv. rewrite Forall_forall in Hall.
  specialize (Hall u Hu). rewrite Forall_forall in Hall. by apply Hall.
Qed.

Lemma segment_dimension : same_dimension segment 2.
Proof.
  assert (Forall (λ v : vector, length v = 2) segment) as Hall by by_compute.
  intros v Hv. rewrite Forall_forall in Hall. by apply Hall.
Qed.

Lemma sink_has_no_out_neighbor_witness :
  ∃ sink distances dir_neighbors,
    find_sink segment (Vec f_generic) = Ok sink ∧
    build segment segment_neighbors (Vec f_generic) = Ok (distances, dir_neighbors) ∧
    dir_neighbors !! sink = Some [] ∧
    ∀ fuel, ∃ distances' rounds,
      relax_loop segment dir_neighbors fuel (<[sink := 0]> distances) false 0
        = Ok (distances', rounds) ∧
      distances' !! sink = Some 0.
Proof.
  apply (sink_has_no_out_neighbor segment segment_neighbors f_generic 2).
  - discriminate.
  - apply segment_closed.
  - apply segment_dimension.
Defined.

(** C2, as the code has it: the scan never raises on a non-empty vertex
    list.  It returns a maximiser of [f·v], namely the first vertex of the
    enumeration that attains the maximum; when no two vertices share a value
    of [f·v] (generic [f]) this is the one and only maximiser. *)
Theorem sink_scan_first_maximizer (Pverts : list vector) (f : vector) :
  Pverts ≠ [] →
  ∃ sink,
    find_sink Pverts (Vec f) = Ok sink ∧
    sink ∈ Pverts ∧
    (∀ v, v ∈ Pverts → (dot f v <= dot f sink)%Qc) ∧
    (∃ pre post, Pverts = pre ++ sink :: post ∧
       ∀ v, v ∈ pre → (dot f v < dot f sink)%Qc) ∧
    ((∀ u v, u ∈ Pverts → v ∈ Pverts → dot f u = dot f v → u = v) →
     ∀ v, v ∈ Pverts → v ≠ sink → (dot f v < dot f sink)%Qc).
Proof.
  intros Hne. destruct Pverts as [|v0 rest] eqn:HP; [done|].
  rewrite <-HP in *. set (s := scan_value f v0 Pverts).
  assert (s ∈ Pverts) as Hs.
  { destruct (scan_value_elem f v0 Pverts) as [Heq|Hin]; [|done].
    unfold s. rewrite Heq, HP. left. }
  assert (∀ v, v ∈ Pverts → (dot f v <= dot f s)%Qc) as Hmax.
  { intros v Hv. by apply scan_value_max. }
  exists s. split; [by apply find_sink_value with rest|].
  split; [done|]. split; [done|]. split.
  - destruct (scan_value_first f v0 Pverts) as [[Heq _]|(pre & post & Hl & _ & Hpre)].
    + exists [], rest. fold s in Heq. rewrite Heq. split; [done|].
      intros v Hv. by apply elem_of_nil in Hv.
    + exists pre, post. fold s in Hl, Hpre. done.
  - intros Hinj v Hv Hvs. specialize (Hmax v Hv).
    destruct (decide (dot f v = dot f s)) as [Heq|Hneq].
    + exfalso. apply Hvs. by apply Hinj.
    + qc_lra.
Qed.

Lemma sink_scan_first_maximizer_witness :
  ∃ sink,
    find_sink segment (Vec f_generic) = Ok sink ∧
    sink ∈ segment ∧
    (∀ v, v ∈ segment → (dot f_generic v <= dot f_generic sink)%Qc) ∧
    (∃ pre post, segment = pre ++ sink :: post ∧
       ∀ v, v ∈ pre → (dot f_generic v < dot f_generic sink)%Qc) ∧
    ((∀ u v, u ∈ segment → v ∈ segment → dot f_generic u = dot f_generic v → u = v) →
     ∀ v, v ∈ segment → v ≠ sink → (dot f_generic v < dot f_generic sink)%Qc).
Proof. apply (sink_scan_first_maximizer segment f_generic). discriminate. Defined.

(** C2 as claimed fails: on the segment with [f = (0, 1)] the two adjacent
    vertices tie, [f·u = f·v], and both attain the maximum; the scan returns
    the first of them and the whole computation ends without an exception. *)
Lemma tie_is_not_raised :
  sq00 ∈ segment ∧ sq10 ∈ segment ∧ sq10 ∈ segment_neighbors sq00 ∧
  sq00 ≠ sq10 ∧ dot f_tie sq00 = dot f_tie sq10 ∧
  (∀ v, v ∈ segment → (dot f_tie v <= dot f_tie sq00)%Qc) ∧
  find_sink segment (Vec f_tie) = Ok sq00 ∧
  monotone_diameter segment segment_neighbors [Vec f_tie] = Ok 2 ∧
  ¬ (∃ e, find_sink segment (Vec f_tie) = Raise e).
Proof.
  assert (find_sink segment (Vec f_tie) = Ok sq00) as Hsink by by_compute.
  repeat split; try by_compute; try done.
  - intros v Hv. unfold segment in Hv. rewrite !elem_of_cons, elem_of_nil in Hv.
    destruct Hv as [->|[->|[]]]; by_compute.
  - intros [e He]. rewrite Hsink in He. discriminate.
Qed.

(** ** Orientation vectors and the running maximum *)

Lemma foldl_snoc_map {A B} (g : A → B) (l : list A) (acc : list B) :
  foldl (λ acc x, acc ++ [g x]) acc l = acc ++ (g <$> l).
Proof.
  revert acc. induction l as [|x l IH]; intros acc; simpl.
  - by rewrite app_nil_r.
  - rewrite IH, <-app_assoc. done.
Qed.

Lemma orientation_vecs_map (regions : list (list vector)) :
  orientation_vecs regions = interior_point <$> regions.
Proof. unfold orientation_vecs. by rewrite foldl_snoc_map. Qed.

Lemma interior_point_cons (r : vector) (rays : list vector) :
  interior_point (r :: rays) = Vec (foldl vadd r rays).
Proof.
  unfold interior_point. simpl. generalize r.
  induction rays as [|r' rays IH]; intros r0; simpl; [done | apply IH].
Qed.

Lemma vadd_lookup (a b : vector) (i : nat) (x y : Qc) :
  a !! i = Some x → b !! i = Some y → vadd a b !! i = Some (x + y)%Qc.
Proof. intros Ha Hb. apply lookup_zip_with_Some. by exists x, y. Qed.

(** Adding up rays of one dimension [n] gives a vector of dimension [n]
    and adds up each coordinate. *)
Lemma foldl_vadd_length (n : nat) (rest : list vector) (r : vector) :
  length r = n → (∀ x, x ∈ rest → length x = n) →
  length (foldl vadd r rest) = n.
Proof.
  intros Hr Hrest. revert r Hr.
  induction rest as [|x rest IH]; intros r Hr; simpl; [done|].
  assert (length x = n) as Hx by (apply Hrest; left).
  apply IH.
  - intros y Hy. apply Hrest. by right.
  - unfold vadd. rewrite length_zip_with. lia.
Qed.

Lemma foldl_vadd_coordinate (n : nat) (rest : list vector) (r : vector) (i : nat) :
  length r = n → (∀ x, x ∈ rest → length x = n) → i < n →
  foldl vadd r rest !! i
    = Some (foldl (λ acc x, (acc + default (Q2Qc 0) (x !! i))%Qc)
              (default (Q2Qc 0) (r !! i)) rest).
Proof.
  intros Hr Hrest Hi. revert r Hr.
  induction rest as [|x rest IH]; intros r Hr; simpl.
  - destruct (r !! i) as [c|] eqn:Hc; [done|].
    apply lookup_ge_None in Hc. lia.
  - assert (length x = n) as Hx by (apply Hrest; left).
    rewrite IH.
    + do 2 f_equal.
      destruct (r !! i) as [c|] eqn:Hc;
        [|apply lookup_ge_None in Hc; lia].
      destruct (x !! i) as [c'|] eqn:Hc';
        [|apply lookup_ge_None in Hc'; lia].
      by rewrite (vadd_lookup r x i c c' Hc Hc').
    + intros y Hy. apply Hrest. by right.
    + unfold vadd. rewrite length_zip_with. lia.
Qed.

(** C9: the enumerator produces one orientation vector per region, in
    order, each the sum of that region's ray generators (Python's [sum]:
    the int 0 for no ray, otherwise the rays added up from the first); for
    rays of one dimension [n] that sum is a vector of dimension [n] whose
    coordinate [i] is the sum of the rays' coordinates [i].  So there are as
    many orientation vectors as regions, and that number is the first
    integer of the output. *)
Theorem one_orientation_per_region
    (Pverts : list vector) (neighbors : vector → list vector)
    (regions : list (list vector)) :
  orientation_vecs regions = interior_point <$> regions ∧
  interior_point [] = Int0 ∧
  (∀ r rays, interior_point (r :: rays) = Vec (foldl vadd r rays)) ∧
  (∀ n r rays, (∀ x, x ∈ r :: rays → length x = n) →
     ∃ s, interior_point (r :: rays) = Vec s ∧
          length s = n ∧
          ∀ i, i < n → s !! i = Some (coordinate_sum (r :: rays) i)) ∧
  length (orientation_vecs regions) = length regions ∧
  (script Pverts neighbors regions).1 = length regions ∧
  (script Pverts neighbors regions).2
    = monotone_diameter Pverts neighbors (orientation_vecs regions).
Proof.
  split; [apply orientation_vecs_map|]. split; [done|].
  split; [apply interior_point_cons|].
  split.
  { intros n r rays Hdim. exists (foldl vadd r rays).
    split; [apply interior_point_cons|].
    assert (length r = n) as Hr by (apply Hdim; left).
    assert (∀ x, x ∈ rays → length x = n) as Hrays
      by (intros x Hx; apply Hdim; by right).
    split; [by apply foldl_vadd_length|].
    intros i Hi. rewrite (foldl_vadd_coordinate n rays r i Hr Hrays Hi).
    unfold coordinate_sum. simpl. by rewrite Qcplus_0_l. }
  split; [|done]. by rewrite orientation_vecs_map, length_fmap.
Qed.

Lemma one_orientation_per_region_witness :
  ∃ s, interior_point [[qz (-1); qz 0]; [qz 0; qz 1]] = Vec s ∧
       length s = 2 ∧
       ∀ i, i < 2 →
         s !! i = Some (coordinate_sum [[qz (-1); qz 0]; [qz 0; qz 1]] i).
Proof.
  apply (proj1 (proj2 (proj2 (proj2
           (one_orientation_per_region square square_neighbors square_regions))))
           2 [qz (-1); qz 0] [[qz 0; qz 1]]).
  intros x Hx. rewrite !elem_of_cons, elem_of_nil in Hx.
  by destruct Hx as [->|[->|[]]].
Defined.

Lemma monodiam_step_max (Pverts : list vector) (neighbors : vector → list vector)
    (m : nat) (o : pysum) :
  monodiam_step Pverts neighbors m o
    = d ← orientation_diameter Pverts neighbors o; Ok (m `max` d).
Proof.
  unfold monodiam_step.
  destruct (orientation_diameter Pverts neighbors o) as [d|e]; simpl; [|done].
  case_decide; f_equal; lia.
Qed.

Lemma monodiam_loop (Pverts : list vector) (neighbors : vector → list vector)
    (ovs : list pysum) (m : nat) :
  for_each (monodiam_step Pverts neighbors) ovs m
    = ds ← comprehension (orientation_diameter Pverts neighbors) ovs;
      Ok (foldl Nat.max m ds).
Proof.
  revert m. induction ovs as [|o ovs IH]; intros m; simpl; [done|].
  rewrite monodiam_step_max.
  destruct (orientation_diameter Pverts neighbors o) as [d|e]; simpl; [|done].
  rewrite IH.
  by destruct (comprehension (orientation_diameter Pverts neighbors) ovs).
Qed.

Lemma foldl_max_max_list (m : nat) (ds : list nat) :
  foldl Nat.max m ds = m `max` max_list ds.
Proof.
  revert m. induction ds as [|d ds IH]; intros m; simpl; [lia|].
  rewrite IH. lia.
Qed.

(** C1: the reported [monodiam] is the maximum, over the orientation
    vectors in order, of the directed diameters: it starts at 0, each
    orientation replaces it by the larger of itself and that orientation's
    diameter, and the final value is at least every diameter and, when there
    is an orientation, is one of them.  An exception raised for an
    orientation ends both sides alike. *)
Theorem monodiam_is_maximum
    (Pverts : list vector) (neighbors : vector → list vector)
    (orientation_vecs : list pysum) :
  monotone_diameter Pverts neighbors [] = Ok 0 ∧
  (∀ ovs o,
     monotone_diameter Pverts neighbors (ovs ++ [o])
       = m ← monotone_diameter Pverts neighbors ovs;
         d ← orientation_diameter Pverts neighbors o;
         Ok (m `max` d)) ∧
  monotone_diameter Pverts neighbors orientation_vecs
    = (ds ← comprehension (orientation_diameter Pverts neighbors) orientation_vecs;
       Ok (max_list ds)) ∧
  (∀ ds, comprehension (orientation_diameter Pverts neighbors) orientation_vecs
           = Ok ds →
     ∃ m, monotone_diameter Pverts neighbors orientation_vecs = Ok m ∧
          (∀ d, d ∈ ds → d ≤ m) ∧ (ds ≠ [] → m ∈ ds)).
Proof.
  assert (∀ ovs, monotone_diameter Pverts neighbors ovs
            = (ds ← comprehension (orientation_diameter Pverts neighbors) ovs;
               Ok (max_list ds))) as Hmax.
  { intros ovs. unfold monotone_diameter. rewrite monodiam_loop.
    destruct (comprehension (orientation_diameter Pverts neighbors) ovs);
      simpl; [|done].
    by rewrite foldl_max_max_list. }
  split; [done|]. split; [|split; [apply Hmax|]].
  - intros ovs o. unfold monotone_diameter. rewrite for_each_app.
    destruct (for_each (monodiam_step Pverts neighbors) ovs 0) as [m|e];
      simpl; [|done].
    rewrite monodiam_step_max.
    by destruct (orientation_diameter Pverts neighbors o) as [d|e].
  - intros ds Hds. rewrite Hmax, Hds. simpl. exists (max_list ds).
    split; [done|]. split.
    + intros d Hd. by apply max_list_elem_of_le.
    + apply max_list_elem_of.
Qed.

Lemma monodiam_is_maximum_witness :
  ∃ m, monotone_diameter square square_neighbors (orientation_vecs square_regions)
         = Ok m ∧
       (∀ d, d ∈ [2; 2; 2; 2] → d ≤ m) ∧ ([2; 2; 2; 2] ≠ [] → m ∈ [2; 2; 2; 2]).
Proof.
  apply (proj2 (proj2 (proj2
    (monodiam_is_maximum square square_neighbors (orientation_vecs square_regions))))).
  by_compute.
Defined.

(** The running value is the largest diameter, not the smallest: two
    vectors on the segment with diameters 1 and 2 give 2. *)
Lemma monodiam_takes_the_larger :
  comprehension (orientation_diameter segment segment_neighbors)
    [Vec f_generic; Vec f_tie] = Ok [1; 2] ∧
  monotone_diameter segment segment_neighbors [Vec f_generic; Vec f_tie] = Ok 2.
Proof. split; by_compute. Qed.

(** ** The bound on the monotone diameter *)

Section MonotoneBound.
Variable Pverts : list vector.
Variable neighbors : vector → list vector.

Local Abbreviation unique_sink_orientation := (unique_sink_orientation Pverts neighbors).

Lemma dir_graph_unique_sink a n s :
  neighbors_closed Pverts neighbors → same_dimension Pverts n →
  unique_sink_orientation a →
  s ∈ Pverts → (∀ v, v ∈ Pverts → (dot a v <= dot a s)%Qc) →
  unique_sink Pverts (dir_graph Pverts neighbors a) s.
Proof.
  intros Hcl Hdim Huso Hs Hmax.
  pose proof (maximum_no_out Pverts neighbors a n s Hcl Hdim Hs Hmax) as Hout.
  split; [done|]. intros u Hu. rewrite out_dir_graph, decide_True by done.
  split; [|by intros ->]. intros Hu0. by apply Huso.
Qed.

Lemma oridiam_of_value (d : gmap vector nat) v0 rest :
  Pverts = v0 :: rest → covers Pverts d →
  oridiam_of Pverts d = Ok (foldl Nat.max (dist_at d v0) (dist_at d <$> rest)).
Proof.
  intros HP Hc. unfold oridiam_of.
  rewrite (comprehension_total _ (dist_at d)).
  - rewrite HP. done.
  - intros x Hx. by apply getitem_Some, (covers_lookup Pverts).
Qed.

(** For an orientation vector the script runs the relaxation of the graph
    [dir_graph], from the initial dict, with the scan's result as sink. *)
Lemma orientation_distances_value a v0 rest :
  Pverts = v0 :: rest → neighbors_closed Pverts neighbors →
  orientation_distances Pverts neighbors (Vec a)
    = relaxed_distances Pverts (dir_graph Pverts neighbors a)
        (scan_value a v0 Pverts) ∧
  orientation_distances Pverts neighbors (Vec a)
    = Ok (final_distances Pverts (dir_graph Pverts neighbors a)
            (scan_value a v0 Pverts)).
Proof.
  intros HP Hcl.
  pose proof (dir_graph_digraph Pverts neighbors a Hcl) as Hg.
  unfold orientation_distances, relaxed_distances.
  rewrite (find_sink_value Pverts a v0 rest HP). simpl.
  rewrite build_value. simpl.
  change (<[scan_value a v0 Pverts := 0]>
            (foldl (λ d u, <[u := length Pverts]> d) ∅ Pverts))
    with (init_distances Pverts (scan_value a v0 Pverts)).
  split; [done|].
  rewrite relax_loop_value by (done || apply covers_init). simpl.
  unfold final_distances.
  by destruct (loop_value Pverts (dir_graph Pverts neighbors a) (length Pverts)
                 (init_distances Pverts (scan_value a v0 Pverts)) false 0).
Qed.

Lemma orientation_diameter_bound a n :
  Pverts ≠ [] →
  neighbors_closed Pverts neighbors → same_dimension Pverts n →
  unique_sink_orientation a →
  ∃ d, orientation_diameter Pverts neighbors (Vec a) = Ok d ∧
       d ≤ length Pverts - 1.
Proof.
  intros Hne Hcl Hdim Huso. destruct Pverts as [|v0 rest] eqn:HP; [done|].
  rewrite <-HP in *.
  set (s := scan_value a v0 Pverts).
  assert (s ∈ Pverts) as Hs.
  { destruct (scan_value_elem a v0 Pverts) as [Heq|Hin]; [|done].
    unfold s. rewrite Heq, HP. left. }
  assert (∀ v, v ∈ Pverts → (dot a v <= dot a s)%Qc) as Hmax.
  { intros v Hv. by apply scan_value_max. }
  pose proof (dir_graph_digraph Pverts neighbors a Hcl) as Hg.
  pose proof (dir_graph_acyclic Pverts neighbors a n Hcl Hdim) as Hac.
  pose proof (dir_graph_unique_sink a n s Hcl Hdim Huso Hs Hmax) as Hus.
  unfold orientation_diameter.
  rewrite (proj2 (orientation_distances_value a v0 rest HP Hcl)). simpl.
  fold s.
  rewrite (oridiam_of_value _ v0 rest HP) by apply final_covers.
  eexists. split; [done|].
  pose proof (foldl_max_elem
    (dist_at (final_distances Pverts (dir_graph Pverts neighbors a) s) v0)
    (dist_at (final_distances Pverts (dir_graph Pverts neighbors a) s) <$> rest))
    as Hel.
  change (dist_at ?d v0 :: (dist_at ?d <$> rest))
    with (dist_at d <$> (v0 :: rest)) in Hel.
  rewrite <-HP in Hel. apply list_elem_of_fmap in Hel as (u & -> & Hu).
  destruct (reach_exists Pverts _ s u Hg Hac Hus Hu) as (k & Hk & Hlt).
  pose proof (final_upper Pverts _ s u k Hg Hu Hk). lia.
Qed.

End MonotoneBound.

(** C5: for a polytope with [N] vertices (the vertices of one space QQ^n,
    neighbours among the vertices) and orientation vectors as the
    arrangement's regions give them (each a vector for which at most one
    vertex has no improving neighbour), the script returns a monotone
    diameter, and it is at most [N − 1]. *)
Theorem monodiam_at_most_N_minus_1
    (Pverts : list vector) (neighbors : vector → list vector)
    (orientation_vecs : list pysum) (n : nat) :
  Pverts ≠ [] →
  neighbors_closed Pverts neighbors →
  same_dimension Pverts n →
  (∀ o, o ∈ orientation_vecs →
     ∃ a, o = Vec a ∧ unique_sink_orientation Pverts neighbors a) →
  ∃ monodiam,
    monotone_diameter Pverts neighbors orientation_vecs = Ok monodiam ∧
    monodiam ≤ length Pverts - 1.
Proof.
  intros Hne Hcl Hdim Hovs. unfold monotone_diameter.
  assert (∀ m, m ≤ length Pverts - 1 →
    ∃ m', for_each (monodiam_step Pverts neighbors) orientation_vecs m = Ok m' ∧
          m' ≤ length Pverts - 1) as Hloop; [|apply Hloop; lia].
  induction orientation_vecs as [|o ovs IH]; intros m Hm; simpl.
  - by exists m.
  - destruct (Hovs o) as (a & -> & Huso); [left|].
    destruct (orientation_diameter_bound Pverts neighbors a n Hne Hcl Hdim Huso)
      as (d & Hd & Hle).
    rewrite monodiam_step_max, Hd. simpl. apply IH; [|lia].
    intros o' Ho'. apply Hovs. by right.
Qed.

Lemma square_closed : neighbors_closed square square_neighbors.
Proof.
  assert (Forall (λ u, Forall (λ v, v ∈ square) (square_neighbors u)) square)
    as Hall by by_compute.
  intros u v Hu Hv. rewrite Forall_forall in Hall.
  specialize (Hall u Hu). rewrite Forall_forall in Hall. by apply Hall.
Qed.

Lemma square_dimension : same_dimension square 2.
Proof.
  assert (Forall (λ v : vector, length v = 2) square) as Hall by by_compute.
  intros v Hv. rewrite Forall_forall in Hall. by apply Hall.
Qed.

Lemma unique_sink_orientation_check Pverts neighbors a :
  Forall (λ u, Forall (λ u',
      out_list neighbors a u = [] → out_list neighbors a u' = [] → u = u')
    Pverts) Pverts →
  unique_sink_orientation Pverts neighbors a.
Proof.
  intros Hall u u' Hu Hu'. rewrite Forall_forall in Hall.
  specialize (Hall u Hu). rewrite Forall_forall in Hall. by apply Hall.
Qed.

Lemma square_unique_sink_orientation o :
  o ∈ orientation_vecs square_regions →
  ∃ a, o = Vec a ∧ unique_sink_orientation square square_neighbors a.
Proof.
  rewrite orientation_vecs_map. unfold square_regions.
  rewrite !fmap_cons, fmap_nil, !elem_of_cons, elem_of_nil.
  intros [->|[->|[->|[->|[]]]]]; rewrite interior_point_cons;
    (eexists; split; [reflexivity|]);
    apply unique_sink_orientation_check; by_compute.
Qed.

Lemma monodiam_at_most_N_minus_1_witness :
  ∃ monodiam,
    monotone_diameter square square_neighbors (orientation_vecs square_regions)
      = Ok monodiam ∧
    monodiam ≤ length square - 1.
Proof.
  apply (monodiam_at_most_N_minus_1 square square_neighbors
           (orientation_vecs square_regions) 2).
  - discriminate.
  - apply square_closed.
  - apply square_dimension.
  - apply square_unique_sink_orientation.
Defined.

(** ** Edge directions *)

Lemma comprehension_app {A B} (f : A → result B) l1 l2 :
  comprehension f (l1 ++ l2)
    = ys1 ← comprehension f l1; ys2 ← comprehension f l2; Ok (ys1 ++ ys2).
Proof.
  induction l1 as [|x l1 IH]; simpl.
  - by destruct (comprehension f l2).
  - destruct (f x) as [y|e]; simpl; [|done]. rewrite IH.
    destruct (comprehension f l1) as [ys1|e]; simpl; [|done].
    by destruct (comprehension f l2).
Qed.

Lemma comprehension_fmap {A B C} (f : B → result C) (g : A → B) l :
  comprehension f (g <$> l) = comprehension (λ x, f (g x)) l.
Proof.
  induction l as [|x l IH]; simpl; [done|].
  destruct (f (g x)); simpl; [|done].
  change (list_fmap A B g l) with (g <$> l). by rewrite IH.
Qed.

Lemma comprehension_elem {A B} (f : A → result B) l ys :
  comprehension f l = Ok ys →
  (∀ y, y ∈ ys ↔ ∃ x, x ∈ l ∧ f x = Ok y) ∧ (∀ x, x ∈ l → ∃ y, f x = Ok y).
Proof.
  revert ys. induction l as [|x l IH]; intros ys; simpl.
  - intros [= <-]. split.
    + intros y. rewrite elem_of_nil. split; [done|].
      intros (x & Hx & _). by apply elem_of_nil in Hx.
    + intros x Hx. by apply elem_of_nil in Hx.
  - destruct (f x) as [y0|e] eqn:Hfx; simpl; [|done].
    destruct (comprehension f l) as [ys0|e]; simpl; [|done].
    intros [= <-]. destruct (IH ys0 eq_refl) as [Hiff Hall]. split.
    + intros y. rewrite elem_of_cons, Hiff. split.
      * intros [->|(x' & Hx' & Hfx')]; [exists x | exists x'];
          (split; [|done]); [left | by right].
      * intros (x' & [->|Hx']%elem_of_cons & Hfx').
        -- left. congruence.
        -- right. eauto.
    + intros x' [->|Hx']%elem_of_cons; [eauto | by apply Hall].
Qed.

Lemma comprehension_all_Ok {A B} (f : A → result B) l :
  (∀ x, x ∈ l → ∃ y, f x = Ok y) → ∃ ys, comprehension f l = Ok ys.
Proof.
  induction l as [|x l IH]; intros Hall; simpl; [eauto|].
  destruct (Hall x) as [y ->]; [left|]. simpl.
  destruct IH as [ys ->]; [|simpl; eauto].
  intros x' Hx'. apply Hall. by right.
Qed.

Section EdgeDirections.

Lemma parallel_sym e e' : parallel e e' → parallel e' e.
Proof.
  intros [->| ->]; [by left|]. right. by rewrite vneg_involutive.
Qed.


Lemma norep_snoc keys e :
  norep keys → (∀ k, k ∈ keys → ¬ parallel k e) → norep (keys ++ [e]).
Proof.
  induction keys as [|k keys IH]; intros Hnr He; simpl.
  - split; [|done]. intros k' Hk'. by apply elem_of_nil in Hk'.
  - destruct Hnr as [Hk Hnr]. split.
    + intros k' [Hk'|Hk']%elem_of_app; [by apply Hk|].
      apply list_elem_of_singleton in Hk' as ->. apply He. left.
    + apply IH; [done|]. intros k' Hk'. apply He. by right.
Qed.

Lemma norep_parallel_eq keys k k' :
  norep keys → k ∈ keys → k' ∈ keys → parallel k k' → k = k'.
Proof.
  induction keys as [|k0 keys IH]; intros Hnr Hk Hk' Hpar.
  - by apply elem_of_nil in Hk.
  - destruct Hnr as [Hk0 Hnr].
    apply elem_of_cons in Hk as [->|Hk]; apply elem_of_cons in Hk' as [->|Hk'].
    + done.
    + by destruct (Hk0 k' Hk').
    + destruct (Hk0 k Hk). by apply parallel_sym.
    + by apply IH.
Qed.

Lemma add_dir_spec keys e :
  norep keys →
  norep (add_dir keys e) ∧
  (∀ k, k ∈ add_dir keys e ↔ k ∈ keys ∨ (k = e ∧ (e ∉ keys) ∧ (vneg e ∉ keys))) ∧
  (e ∈ add_dir keys e ∨ vneg e ∈ add_dir keys e).
Proof.
  intros Hnr. unfold add_dir. case_decide as Hnew.
  - destruct Hnew as [He Hne]. split; [|split].
    + apply norep_snoc; [done|]. intros k Hk [->| ->]; [done|].
      by rewrite vneg_involutive in Hne.
    + intros k. rewrite elem_of_app, list_elem_of_singleton. split.
      * intros [?| ->]; [by left | by right].
      * intros [?|[-> _]]; [by left | by right].
    + left. apply elem_of_app. right. left.
  - split; [done|]. split.
    { intros k. split; [by left|]. intros [?|(_ & He & Hne)]; [done|].
      by destruct Hnew. }
    destruct (decide (e ∈ keys)) as [?|He]; [by left|].
    destruct (decide (vneg e ∈ keys)) as [?|Hne]; [by right|].
    destruct Hnew. done.
Qed.

Lemma foldl_add_dir_spec es keys :
  norep keys →
  norep (foldl add_dir keys es) ∧
  (∀ k, k ∈ keys → k ∈ foldl add_dir keys es) ∧
  (∀ k, k ∈ foldl add_dir keys es → k ∈ keys ∨ k ∈ es) ∧
  (∀ e, e ∈ es → e ∈ foldl add_dir keys es ∨ vneg e ∈ foldl add_dir keys es).
Proof.
  revert keys. induction es as [|e es IH]; intros keys Hnr; simpl.
  - split; [done|]. split; [done|]. split; [by left|].
    intros e He. by apply elem_of_nil in He.
  - destruct (add_dir_spec keys e Hnr) as (Hnr' & Hiff & Hcov).
    destruct (IH _ Hnr') as (Hnr'' & Hkeep & Hsub & Hall).
    split; [done|]. split; [|split].
    + intros k Hk. apply Hkeep, Hiff. by left.
    + intros k Hk. destruct (Hsub k Hk) as [Hk'|Hk'].
      * apply Hiff in Hk' as [?|(-> & _)]; [by left | right; left].
      * right. by right.
    + intros e' [->|He']%elem_of_cons; [|by apply Hall].
      destruct Hcov as [?|?]; [left | right]; by apply Hkeep.
Qed.


End EdgeDirections.

Lemma elem_of_adjacent_pairs Pverts neighbors (u v : vector) :
  (u, v) ∈ adjacent_pairs Pverts neighbors ↔ u ∈ Pverts ∧ v ∈ neighbors u.
Proof.
  unfold adjacent_pairs. rewrite list_elem_of_bind. split.
  - intros (u' & Hin & Hu'). apply list_elem_of_fmap in Hin as (v' & [= -> ->] & Hv').
    done.
  - intros [Hu Hv]. exists u. split; [|done]. by apply list_elem_of_fmap_2.
Qed.

Lemma edge_dirs_step_value (u v : vector) (keys : list vector) :
  edge_dirs_step u keys v = e ← edge_dir u v; Ok (add_dir keys e).
Proof.
  unfold edge_dirs_step, add_dir.
  destruct (edge_dir u v) as [e|x]; simpl; [|done]. by case_decide.
Qed.

Lemma edge_dirs_inner_value (u : vector) (l : list vector) (keys : list vector) :
  for_each (edge_dirs_step u) l keys
    = es ← comprehension (edge_dir u) l; Ok (foldl add_dir keys es).
Proof.
  revert keys. induction l as [|v l IH]; intros keys; simpl; [done|].
  rewrite edge_dirs_step_value.
  destruct (edge_dir u v) as [e|x]; simpl; [|done]. rewrite IH.
  by destruct (comprehension (edge_dir u) l).
Qed.

Lemma edge_dirs_outer_value Pverts neighbors (keys : list vector) :
  for_each (λ edge_dirs u, for_each (edge_dirs_step u) (neighbors u) edge_dirs)
           Pverts keys
    = es ← comprehension (λ p, edge_dir p.1 p.2) (adjacent_pairs Pverts neighbors);
      Ok (foldl add_dir keys es).
Proof.
  revert keys. induction Pverts as [|u Pverts IH]; intros keys; simpl; [done|].
  rewrite edge_dirs_inner_value.
  change (adjacent_pairs (u :: Pverts) neighbors)
    with (((λ v, (u, v)) <$> neighbors u) ++ adjacent_pairs Pverts neighbors).
  rewrite comprehension_app, comprehension_fmap. simpl.
  destruct (comprehension (edge_dir u) (neighbors u)) as [es1|x]; simpl; [|done].
  rewrite IH.
  destruct (comprehension (λ p, edge_dir p.1 p.2)
              (adjacent_pairs Pverts neighbors)) as [es2|x]; simpl; [|done].
  by rewrite foldl_app.
Qed.

Lemma edge_dirs_keys_value Pverts neighbors :
  edge_dirs_keys Pverts neighbors
    = es ← comprehension (λ p, edge_dir p.1 p.2) (adjacent_pairs Pverts neighbors);
      Ok (foldl add_dir [] es).
Proof. apply edge_dirs_outer_value. Qed.

(** What a successful extraction returns. *)
Lemma edge_dirs_keys_spec Pverts neighbors keys :
  edge_dirs_keys Pverts neighbors = Ok keys →
  norep keys ∧
  (∀ u v, u ∈ Pverts → v ∈ neighbors u →
     ∃ e, edge_dir u v = Ok e ∧ (e ∈ keys ∨ vneg e ∈ keys)) ∧
  (∀ k, k ∈ keys → ∃ u v, u ∈ Pverts ∧ v ∈ neighbors u ∧ edge_dir u v = Ok k).
Proof.
  rewrite edge_dirs_keys_value.
  destruct (comprehension (λ p, edge_dir p.1 p.2)
              (adjacent_pairs Pverts neighbors)) as [es|x] eqn:Hes; simpl; [|done].
  intros [= <-]. destruct (comprehension_elem _ _ _ Hes) as [Hiff Hall].
  destruct (foldl_add_dir_spec es [] I) as (Hnr & _ & Hsub & Hcov).
  split; [done|]. split.
  - intros u v Hu Hv. destruct (Hall (u, v)) as [e He].
    { by apply elem_of_adjacent_pairs. }
    exists e. split; [done|]. apply Hcov, Hiff. exists (u, v).
    split; [by apply elem_of_adjacent_pairs | done].
  - intros k Hk. destruct (Hsub k Hk) as [Hk'|Hk']; [by apply elem_of_nil in Hk'|].
    apply Hiff in Hk' as ([u v] & Hp & He).
    apply elem_of_adjacent_pairs in Hp as [Hu Hv]. by exists u, v.
Qed.

(** *** The representative kept is the one met first *)







(** ** The input rows and the variable names *)

Lemma list_getitem_Ok {T} (l : list T) i x :
  list_getitem l i = Ok x ↔ l !! i = Some x.
Proof.
  unfold list_getitem. destruct (l !! i); split; intros; simplify_eq; done.
Qed.

Lemma list_getitem_ge {T} (l : list T) i :
  length l ≤ i → list_getitem l i = Raise IndexError.
Proof. intros Hi. unfold list_getitem. by rewrite lookup_ge_None_2. Qed.

Lemma ineq_system_loop {T} (A : list (list T)) (b : list T) k m rows :
  k + m = length A →
  length A ≤ length b →
  for_each (λ rows i,
              bi ← list_getitem b i;
              Ai ← list_getitem A i;
              Ok (rows ++ [bi :: Ai]))
           (seq k m) rows
    = Ok (rows ++ zip_with cons (drop k b) (drop k A)).
Proof.
  revert k rows. induction m as [|m IH]; intros k rows Hkm Hle; simpl.
  - rewrite (drop_ge A) by lia. rewrite zip_with_nil_r. by rewrite app_nil_r.
  - destruct (lookup_lt_is_Some_2 b k) as [bi Hbi]; [lia|].
    destruct (lookup_lt_is_Some_2 A k) as [Ai HAi]; [lia|].
    rewrite (proj2 (list_getitem_Ok b k bi) Hbi). simpl.
    rewrite (proj2 (list_getitem_Ok A k Ai) HAi). simpl.
    rewrite IH by lia.
    rewrite (drop_S b bi k Hbi), (drop_S A Ai k HAi). simpl.
    by rewrite <-app_assoc.
Qed.

Lemma ineq_system_short {T} (A : list (list T)) (b : list T) k m rows :
  k ≤ length b → length b < k + m → k + m = length A →
  for_each (λ rows i,
              bi ← list_getitem b i;
              Ai ← list_getitem A i;
              Ok (rows ++ [bi :: Ai]))
           (seq k m) rows
    = Raise IndexError.
Proof.
  revert k rows. induction m as [|m IH]; intros k rows Hk Hlt Hkm; simpl; [lia|].
  destruct (decide (k = length b)) as [->|Hne].
  - by rewrite (list_getitem_ge b (length b)).
  - destruct (lookup_lt_is_Some_2 b k) as [bi Hbi]; [lia|].
    destruct (lookup_lt_is_Some_2 A k) as [Ai HAi]; [lia|].
    rewrite (proj2 (list_getitem_Ok b k bi) Hbi). simpl.
    rewrite (proj2 (list_getitem_Ok A k Ai) HAi). simpl.
    apply IH; lia.
Qed.

(** X1: the inequality system has one row per row of [A], the row [i]
    being [b[i]] followed by [A[i]], so that [A] is read back by dropping the
    first column; entries of [b] beyond [len(A)] are ignored, and a [b]
    shorter than [A] raises IndexError. *)
Theorem ineq_system_rows {T} (A : list (list T)) (b : list T) :
  (length A ≤ length b →
   ∃ rows, ineq_system A b = Ok rows ∧
     length rows = length A ∧
     (∀ i bi Ai, b !! i = Some bi → A !! i = Some Ai → rows !! i = Some (bi :: Ai)) ∧
     tail <$> rows = A ∧
     ineq_system A (take (length A) b) = Ok rows) ∧
  (length b < length A → ineq_system A b = Raise IndexError).
Proof.
  split.
  - intros Hle. exists (zip_with cons b A).
    assert (∀ b' : list T, length A ≤ length b' →
              ineq_system A b' = Ok (zip_with cons b' A)) as Hrun.
    { intros b' Hle'. unfold ineq_system.
      rewrite (ineq_system_loop A b' 0 (length A) []) by (done || lia).
      by rewrite !drop_0. }
    split; [by apply Hrun|]. split; [|split; [|split]].
    + rewrite length_zip_with. lia.
    + intros i bi Ai Hbi HAi. rewrite lookup_zip_with, Hbi. simpl. by rewrite HAi.
    + clear Hrun. revert b Hle. induction A as [|Ai A IH]; intros [|bi b] Hle;
        simpl in *; try done; try lia.
      f_equal. apply IH. lia.
    + rewrite Hrun by (rewrite length_take; lia). f_equal.
      clear Hrun. revert b Hle. induction A as [|Ai A IH]; intros [|bi b] Hle;
        simpl in *; try done; try lia.
      f_equal. apply IH. lia.
  - intros Hlt. unfold ineq_system.
    apply (ineq_system_short A b 0 (length A)); lia.
Qed.

Lemma ineq_system_rows_witness :
  ∃ rows, ineq_system [[1; 0]; [0; 1]]%Z [5; 6; 7]%Z = Ok rows ∧
    length rows = length [[1; 0]; [0; 1]]%Z ∧
    (∀ i bi Ai, [5; 6; 7]%Z !! i = Some bi → [[1; 0]; [0; 1]]%Z !! i = Some Ai →
       rows !! i = Some (bi :: Ai)) ∧
    tail <$> rows = [[1; 0]; [0; 1]]%Z ∧
    ineq_system [[1; 0]; [0; 1]]%Z (take (length [[1; 0]; [0; 1]]%Z) [5; 6; 7]%Z)
      = Ok rows.
Proof.
  apply (proj1 (ineq_system_rows [[1; 0]; [0; 1]]%Z [5; 6; 7]%Z)). simpl. lia.
Defined.

Lemma str_repeat_length (k : nat) : String.length (str_repeat "A" k) = k.
Proof. induction k as [|k IH]; simpl; [done | by f_equal]. Qed.

Lemma indices_lookup (n i : nat) :
  i < n → indices n !! i = Some (str_repeat "A" (i + 1)).
Proof.
  intros Hi. unfold indices. rewrite list_lookup_fmap.
  by rewrite lookup_seq_lt.
Qed.

(** X2: the arrangement gets [n] variable names, the name [i] being
    [i + 1] letters [A]; the names are pairwise distinct. *)
Theorem indices_distinct (n : nat) :
  length (indices n) = n ∧
  (∀ i, i < n → ∃ name, indices n !! i = Some name ∧
     name = str_repeat "A" (i + 1) ∧ String.length name = i + 1) ∧
  NoDup (indices n).
Proof.
  split; [|split].
  - unfold indices. by rewrite length_fmap, length_seq.
  - intros i Hi. eexists. split; [by apply indices_lookup|].
    split; [done | apply str_repeat_length].
  - unfold indices. apply NoDup_fmap_2_strong; [|apply NoDup_seq].
    intros i j _ _ Heq. apply (f_equal String.length) in Heq.
    rewrite !str_repeat_length in Heq. lia.
Qed.

(** X3: for a non-empty matrix [A] whose rows all have [n] entries and a
    [b] with an entry per row, [n] is what line 40 computes, every row of the
    inequality system has [n + 1] entries, and there are as many variable
    names as columns of [A]; an empty [A] raises IndexError at line 40. *)
Theorem input_dimensions {T} (A : list (list T)) (b : list T) (n : nat) :
  (A ≠ [] → (∀ row, row ∈ A → length row = n) → length A ≤ length b →
   num_variables A = Ok n ∧
   (∃ rows, ineq_system A b = Ok rows ∧ ∀ row, row ∈ rows → length row = n + 1) ∧
   length (indices n) = n) ∧
  num_variables ([] : list (list T)) = Raise IndexError.
Proof.
  split; [|done]. intros Hne Hrect Hle. split; [|split].
  - destruct A as [|row A]; [done|]. unfold num_variables. simpl.
    f_equal. apply Hrect. left.
  - exists (zip_with cons b A). split.
    + unfold ineq_system.
      rewrite (ineq_system_loop A b 0 (length A) []) by (done || lia).
      by rewrite !drop_0.
    + intros row Hrow. apply list_elem_of_lookup in Hrow as [i Hi].
      apply lookup_zip_with_Some in Hi as (bi & Ai & -> & _ & HAi).
      simpl. rewrite (Hrect Ai); [lia|]. by eapply list_elem_of_lookup_2.
  - unfold indices. by rewrite length_fmap, length_seq.
Qed.

Lemma input_dimensions_witness :
  num_variables [[1; 0]; [0; 1]]%Z = Ok 2 ∧
  (∃ rows, ineq_system [[1; 0]; [0; 1]]%Z [5; 6]%Z = Ok rows ∧
     ∀ row, row ∈ rows → length row = 2 + 1) ∧
  length (indices 2) = 2.
Proof.
  apply (proj1 (input_dimensions [[1; 0]; [0; 1]]%Z [5; 6]%Z 2)).
  - discriminate.
  - intros row Hrow. rewrite !elem_of_cons, elem_of_nil in Hrow.
    by destruct Hrow as [->|[->|[]]].
  - simpl. lia.
Defined.

(** ** More on edge directions *)

Lemma foldl_Qcplus_acc (acc : Qc) (l : list Qc) :
  foldl Qcplus acc l = (acc + foldl Qcplus (Q2Qc 0) l)%Qc.
Proof.
  revert acc. induction l as [|x l IH]; intros acc; simpl.
  - ring.
  - rewrite (IH (acc + x)%Qc), (IH (Q2Qc 0 + x)%Qc). ring.
Qed.

Lemma norm1_cons (x : Qc) (w : vector) : norm1 (x :: w) = (Qcabs x + norm1 w)%Qc.
Proof.
  unfold norm1. simpl. rewrite foldl_Qcplus_acc.
  change (list_fmap Qc Qc Qcabs w) with (Qcabs <$> w). ring.
Qed.

Lemma norm1_nil : norm1 [] = Q2Qc 0.
Proof. done. Qed.

Lemma norm1_nonneg (w : vector) : (Q2Qc 0 <= norm1 w)%Qc.
Proof.
  induction w as [|x w IH].
  - rewrite norm1_nil. unfold Qcle. apply Qle_refl.
  - rewrite norm1_cons. pose proof (Qcabs_nonneg x) as Hx. qc_lra.
Qed.

Lemma norm1_vneg (w : vector) : norm1 (vneg w) = norm1 w.
Proof.
  unfold vneg. induction w as [|x w IH]; [done|].
  rewrite fmap_cons, !norm1_cons, IH. by rewrite Qcabs_opp.
Qed.

Lemma Qcabs_div_pos (x s : Qc) :
  (Q2Qc 0 < s)%Qc → Qcabs (x / s) = (Qcabs x / s)%Qc.
Proof.
  intros Hs. unfold Qcdiv. rewrite Qcabs_Qcmult. f_equal.
  apply Qcabs_pos. apply Qclt_le_weak.
  apply Qcinv_pos in Hs. exact Hs.
Qed.

Lemma norm1_div (w : vector) (s : Qc) :
  (Q2Qc 0 < s)%Qc → norm1 ((λ x, x / s)%Qc <$> w) = (norm1 w / s)%Qc.
Proof.
  intros Hs. induction w as [|x w IH].
  - rewrite fmap_nil, norm1_nil. unfold Qcdiv. ring.
  - rewrite fmap_cons, !norm1_cons, IH, Qcabs_div_pos by done.
    unfold Qcdiv. ring.
Qed.

Lemma vsub_self_zero (u : vector) : ∀ x, x ∈ vsub u u → x = Q2Qc 0.
Proof.
  unfold vsub. induction u as [|y u IH]; intros x Hx; simpl in Hx.
  - by apply elem_of_nil in Hx.
  - apply elem_of_cons in Hx as [->|Hx]; [ring | by apply IH].
Qed.

Lemma vsub_length (u v : vector) : length (vsub u v) = length u `min` length v.
Proof. unfold vsub. apply length_zip_with. Qed.

(** X4: the direction of an adjacent pair has 1-norm exactly 1 and as many
    coordinates as the two vertices share; a pair whose difference has
    1-norm 0, in particular a vertex paired with itself, raises
    ZeroDivisionError. *)
Theorem edge_dir_unit_norm (u v : vector) :
  (norm1 (vsub u v) = Q2Qc 0 → edge_dir u v = Raise ZeroDivisionError) ∧
  (∀ e, edge_dir u v = Ok e →
     norm1 e = Q2Qc 1 ∧ length e = length u `min` length v) ∧
  edge_dir u u = Raise ZeroDivisionError.
Proof.
  assert (∀ a b, norm1 (vsub a b) = Q2Qc 0 →
            edge_dir a b = Raise ZeroDivisionError) as Hzero.
  { intros a b Hn. unfold edge_dir, vdiv. by rewrite decide_True. }
  split; [apply Hzero|]. split.
  - intros e [Hs ->]%edge_dir_Ok. split.
    + assert (Q2Qc 0 < norm1 (vsub u v))%Qc as Hpos.
      { pose proof (norm1_nonneg (vsub u v)) as Hge.
        destruct (Qc_eq_dec (norm1 (vsub u v)) (Q2Qc 0)) as [?|Hne]; [done|].
        apply Qcle_lt_or_eq in Hge as [?|Heq]; [done | by destruct Hne]. }
      rewrite norm1_div by done. unfold Qcdiv. by apply Qcmult_inv_r.
    + by rewrite length_fmap, vsub_length.
  - apply Hzero, norm1_zero, vsub_self_zero.
Qed.

Lemma edge_dir_unit_norm_witness :
  norm1 [qz (-1); qz 0] = Q2Qc 1 ∧
  length ([qz (-1); qz 0] : vector) = length sq00 `min` length sq10.
Proof.
  apply (proj1 (proj2 (edge_dir_unit_norm sq00 sq10))). by_compute.
Defined.

Lemma fmap_div_vneg (w : vector) (s : Qc) :
  (λ x, x / s)%Qc <$> vneg w = vneg ((λ x, x / s)%Qc <$> w).
Proof.
  unfold vneg. induction w as [|x w IH]; [done|].
  rewrite !fmap_cons, IH. f_equal. unfold Qcdiv. ring.
Qed.

(** X5: visiting an edge from its other end gives the opposite direction:
    the direction of [(v, u)] is the negative of the direction of [(u, v)],
    and one raises exactly when the other does. *)
Theorem edge_dir_reversed (u v : vector) :
  edge_dir v u = e ← edge_dir u v; Ok (vneg e).
Proof.
  unfold edge_dir, vdiv. rewrite (vsub_swap v u), norm1_vneg.
  case_decide; [done|]. simpl. by rewrite fmap_div_vneg.
Qed.

Lemma comprehension_Raise {A B} (f : A → result B) l e :
  comprehension f l = Raise e → ∃ x, x ∈ l ∧ f x = Raise e.
Proof.
  induction l as [|x l IH]; simpl; [done|].
  destruct (f x) as [y|e'] eqn:Hfx; simpl.
  - destruct (comprehension f l) as [ys|e'']; simpl; [done|].
    intros [= ->]. destruct IH as (x' & Hx' & Hfx'); [done|].
    exists x'. split; [by right | done].
  - intros [= ->]. exists x. split; [left | done].
Qed.

Lemma comprehension_length {A B} (f : A → result B) l ys :
  comprehension f l = Ok ys → length ys = length l.
Proof.
  revert ys. induction l as [|x l IH]; intros ys; simpl.
  - by intros [= <-].
  - destruct (f x); simpl; [|done].
    destruct (comprehension f l) as [ys0|]; simpl; [|done].
    intros [= <-]. simpl. f_equal. by apply IH.
Qed.

Lemma edge_dir_Raise (u v : vector) e :
  edge_dir u v = Raise e ↔ e = ZeroDivisionError ∧ norm1 (vsub u v) = Q2Qc 0.
Proof.
  unfold edge_dir, vdiv. case_decide as Hs.
  - split; [by intros [= <-] | by intros [-> _]].
  - split; [done | by intros [_ ?]].
Qed.

(** X6: the extraction raises exactly when some adjacent pair has a
    difference of 1-norm 0 (a vertex listed as its own neighbour, say), and
    then the exception is ZeroDivisionError; otherwise it returns its list of
    directions. *)
Theorem edge_dirs_keys_raises
    (Pverts : list vector) (neighbors : vector → list vector) :
  ((∀ u v, u ∈ Pverts → v ∈ neighbors u → norm1 (vsub u v) ≠ Q2Qc 0) →
   ∃ keys, edge_dirs_keys Pverts neighbors = Ok keys) ∧
  ((∃ u v, u ∈ Pverts ∧ v ∈ neighbors u ∧ norm1 (vsub u v) = Q2Qc 0) →
   edge_dirs_keys Pverts neighbors = Raise ZeroDivisionError) ∧
  (∀ e, edge_dirs_keys Pverts neighbors = Raise e → e = ZeroDivisionError).
Proof.
  assert (∀ e, edge_dirs_keys Pverts neighbors = Raise e → e = ZeroDivisionError)
    as Honly.
  { intros e. rewrite edge_dirs_keys_value.
    destruct (comprehension (λ p, edge_dir p.1 p.2)
                (adjacent_pairs Pverts neighbors)) as [es|e'] eqn:Hes; simpl; [done|].
    intros [= ->]. apply comprehension_Raise in Hes as ([u v] & _ & Hr).
    by apply edge_dir_Raise in Hr as [-> _]. }
  split; [|split; [|done]].
  - intros Hne. rewrite edge_dirs_keys_value.
    destruct (comprehension_all_Ok (λ p, edge_dir p.1 p.2)
                (adjacent_pairs Pverts neighbors)) as [es ->]; [|simpl; eauto].
    intros [u v] [Hu Hv]%elem_of_adjacent_pairs. simpl.
    destruct (edge_dir u v) as [e|e] eqn:He; [eauto|].
    apply edge_dir_Raise in He as [_ He]. by destruct (Hne u v).
  - intros (u & v & Hu & Hv & Hz).
    destruct (edge_dirs_keys Pverts neighbors) as [keys|e] eqn:Hk.
    + destruct (edge_dirs_keys_spec _ _ _ Hk) as (_ & Hcov & _).
      destruct (Hcov u v Hu Hv) as (d & [Hd _]%edge_dir_Ok & _). done.
    + f_equal. by apply Honly.
Qed.

Lemma edge_dirs_keys_raises_witness :
  ∃ keys, edge_dirs_keys segment segment_neighbors = Ok keys.
Proof.
  apply (proj1 (edge_dirs_keys_raises segment segment_neighbors)).
  assert (Forall (λ u, Forall (λ v, norm1 (vsub u v) ≠ Q2Qc 0)
                          (segment_neighbors u)) segment) as Hall by by_compute.
  intros u v Hu Hv. rewrite Forall_forall in Hall.
  specialize (Hall u Hu). rewrite Forall_forall in Hall. by apply Hall.
Defined.

Lemma norep_NoDup (keys : list vector) : norep keys → NoDup keys.
Proof.
  induction keys as [|k keys IH]; intros Hnr; [constructor|].
  destruct Hnr as [Hk Hnr]. constructor; [|by apply IH].
  intros Hin. apply (Hk k Hin). by left.
Qed.

Lemma add_dir_length (keys : list vector) (e : vector) :
  length (add_dir keys e) ≤ S (length keys).
Proof.
  unfold add_dir. case_decide; [|lia]. rewrite length_app. simpl. lia.
Qed.

Lemma foldl_add_dir_length (es keys : list vector) :
  length (foldl add_dir keys es) ≤ length keys + length es.
Proof.
  revert keys. induction es as [|e es IH]; intros keys; simpl; [lia|].
  etrans; [apply IH|]. pose proof (add_dir_length keys e). lia.
Qed.

(** X7: the list of canonical directions has no repetition and never holds
    a direction together with its negative; each entry has 1-norm 1; there
    are at most as many as ordered adjacent pairs; and line 37 pairs each, in
    order, with the constant 0. *)
Theorem edge_dirs_keys_canonical
    (Pverts : list vector) (neighbors : vector → list vector)
    (keys : list vector) :
  edge_dirs_keys Pverts neighbors = Ok keys →
  NoDup keys ∧
  (∀ k, k ∈ keys → (vneg k ∉ keys) ∧ norm1 k = Q2Qc 1) ∧
  length keys ≤ length (adjacent_pairs Pverts neighbors) ∧
  ∃ dirs, edge_dirs Pverts neighbors = Ok dirs ∧
          length dirs = length keys ∧
          ∀ i k, keys !! i = Some k → dirs !! i = Some (k, 0%Z).
Proof.
  intros Hkeys. destruct (edge_dirs_keys_spec _ _ _ Hkeys) as (Hnr & _ & Hsub).
  split; [by apply norep_NoDup|]. split; [|split].
  - intros k Hk. destruct (Hsub k Hk) as (u & v & _ & _ & Hd). split.
    + intros Hneg. apply (edge_dir_not_self_opp u v k Hd).
      apply (norep_parallel_eq keys); [done..|]. by right.
    + unfold edge_dir, vdiv in Hd. case_decide as Hs; [done|].
      injection Hd as <-.
      assert (Q2Qc 0 < norm1 (vsub u v))%Qc as Hpos.
      { pose proof (norm1_nonneg (vsub u v)) as Hge.
        apply Qcle_lt_or_eq in Hge as [?|Heq]; [done | by destruct Hs]. }
      rewrite norm1_div by done. unfold Qcdiv. by apply Qcmult_inv_r.
  - rewrite edge_dirs_keys_value in Hkeys.
    destruct (comprehension (λ p, edge_dir p.1 p.2)
                (adjacent_pairs Pverts neighbors)) as [es|e] eqn:Hes;
      simpl in Hkeys; [|done].
    injection Hkeys as <-. rewrite <-(comprehension_length _ _ _ Hes).
    apply (foldl_add_dir_length es []).
  - unfold edge_dirs. rewrite Hkeys. simpl. eexists. split; [done|].
    split; [by rewrite length_fmap|].
    intros i k Hi. by rewrite list_lookup_fmap, Hi.
Qed.

Lemma edge_dirs_keys_canonical_witness :
  NoDup [[qz (-1); qz 0]] ∧
  (∀ k, k ∈ [[qz (-1); qz 0]] → (vneg k ∉ [[qz (-1); qz 0]]) ∧ norm1 k = Q2Qc 1) ∧
  length [[qz (-1); qz 0]] ≤ length (adjacent_pairs segment segment_neighbors) ∧
  ∃ dirs, edge_dirs segment segment_neighbors = Ok dirs ∧
          length dirs = length [[qz (-1); qz 0]] ∧
          ∀ i k, [[qz (-1); qz 0]] !! i = Some k → dirs !! i = Some (k, 0%Z).
Proof.
  apply (edge_dirs_keys_canonical segment segment_neighbors). by_compute.
Defined.

(** ** Exceptional runs *)

(** X8: with no vertex the sink scan raises IndexError whatever the
    orientation vector is, and so does the whole loop as soon as there is an
    orientation; with vertices, a region without rays (whose sum is the int
    0) raises AttributeError.  The region count is printed before either. *)
Theorem script_exceptions
    (Pverts : list vector) (neighbors : vector → list vector) :
  (∀ o, find_sink [] o = Raise IndexError) ∧
  (∀ o ovs, monotone_diameter [] neighbors (o :: ovs) = Raise IndexError) ∧
  (Pverts ≠ [] →
   find_sink Pverts Int0 = Raise AttributeError ∧
   (∀ ovs, monotone_diameter Pverts neighbors (Int0 :: ovs) = Raise AttributeError) ∧
   (∀ regions, script Pverts neighbors ([] :: regions)
               = (S (length regions), Raise AttributeError))).
Proof.
  split; [done|]. split; [done|]. intros Hne.
  assert (find_sink Pverts Int0 = Raise AttributeError) as Hsink.
  { unfold find_sink. by destruct Pverts. }
  assert (∀ ovs, monotone_diameter Pverts neighbors (Int0 :: ovs)
                 = Raise AttributeError) as Hmono.
  { intros ovs. unfold monotone_diameter. simpl.
    unfold monodiam_step, orientation_diameter, orientation_distances.
    by rewrite Hsink. }
  split; [done|]. split; [done|].
  intros regions. unfold script. simpl. f_equal.
  rewrite orientation_vecs_map, fmap_cons. apply Hmono.
Qed.

Lemma script_exceptions_witness :
  find_sink segment Int0 = Raise AttributeError ∧
  (∀ ovs, monotone_diameter segment segment_neighbors (Int0 :: ovs)
          = Raise AttributeError) ∧
  (∀ regions, script segment segment_neighbors ([] :: regions)
              = (S (length regions), Raise AttributeError)).
Proof.
  apply (proj2 (proj2 (script_exceptions segment segment_neighbors))).
  discriminate.
Defined.

(** The scan returns a maximiser among the vertices. *)
Lemma find_sink_maximum (Pverts : list vector) (f : vector) :
  Pverts ≠ [] →
  ∃ s, find_sink Pverts (Vec f) = Ok s ∧ s ∈ Pverts ∧
       ∀ v, v ∈ Pverts → (dot f v <= dot f s)%Qc.
Proof.
  intros Hne. destruct Pverts as [|v0 rest] eqn:HP; [done|]. rewrite <-HP.
  exists (scan_value f v0 Pverts).
  split; [by apply find_sink_value with rest|]. split.
  - destruct (scan_value_elem f v0 Pverts) as [Heq|Hin]; [|done].
    rewrite Heq, HP. left.
  - intros v Hv. by apply scan_value_max.
Qed.

(** X9: enumerating the vertices in another order leaves the value of the
    functional at the sink unchanged, and leaves the sink itself unchanged
    when no two vertices share a value of the functional. *)
Theorem find_sink_permutation (Pverts Pverts' : list vector) (f : vector) :
  Pverts ≠ [] → Pverts ≡ₚ Pverts' →
  ∃ s s', find_sink Pverts (Vec f) = Ok s ∧ find_sink Pverts' (Vec f) = Ok s' ∧
    dot f s = dot f s' ∧
    ((∀ u v, u ∈ Pverts → v ∈ Pverts → dot f u = dot f v → u = v) → s = s').
Proof.
  intros Hne Hperm.
  assert (Pverts' ≠ []) as Hne'.
  { intros ->. by apply Permutation_nil_r in Hperm. }
  destruct (find_sink_maximum Pverts f Hne) as (s & Hs & Hin & Hmax).
  destruct (find_sink_maximum Pverts' f Hne') as (s' & Hs' & Hin' & Hmax').
  exists s, s'. split; [done|]. split; [done|].
  assert (dot f s = dot f s') as Heq.
  { apply Qc_le_antisym.
    - apply Hmax'. by rewrite <-Hperm.
    - apply Hmax. by rewrite Hperm. }
  split; [done|]. intros Hinj. apply Hinj; [done | by rewrite Hperm | done].
Qed.

Lemma find_sink_permutation_witness :
  ∃ s s', find_sink segment (Vec f_tie) = Ok s ∧
    find_sink [sq10; sq00] (Vec f_tie) = Ok s' ∧
    dot f_tie s = dot f_tie s' ∧
    ((∀ u v, u ∈ segment → v ∈ segment → dot f_tie u = dot f_tie v → u = v) →
     s = s').
Proof.
  apply (find_sink_permutation segment [sq10; sq00] f_tie).
  - discriminate.
  - apply perm_swap.
Defined.

(** ** More on the directed graph *)

Lemma dot_zero (a w : vector) : (∀ x, x ∈ w → x = Q2Qc 0) → dot a w = Q2Qc 0.
Proof.
  unfold dot. revert w. induction a as [|y a IH]; intros [|x w] Hz; simpl; try done.
  rewrite (Hz x) by left. rewrite IH; [ring|].
  intros x' Hx'. apply Hz. by right.
Qed.

Lemma not_improving_self (a u : vector) : ¬ improving a u u.
Proof.
  unfold improving. rewrite (dot_zero a (vsub u u)) by apply vsub_self_zero.
  apply Qc_lt_irrefl.
Qed.

Lemma improving_asym (a u v : vector) : improving a u v → ¬ improving a v u.
Proof.
  unfold improving. rewrite (dot_vsub_swap a u v). intros Huv Hvu. qc_lra.
Qed.

(** X10: for an orientation vector the build loop never raises; it stores
    [len(Pverts)] as the distance of every vertex and of nothing else, and the
    out-list of a vertex is its neighbour list, in order, filtered by strict
    increase of the functional.  A vertex is never its own out-neighbour,
    and no two vertices are out-neighbours of each other. *)
Theorem build_shape
    (Pverts : list vector) (neighbors : vector → list vector) (f : vector) :
  ∃ distances dir_neighbors,
    build Pverts neighbors (Vec f) = Ok (distances, dir_neighbors) ∧
    (∀ u, distances !! u
          = if decide (u ∈ Pverts) then Some (length Pverts) else None) ∧
    (∀ u, dir_neighbors !! u
          = if decide (u ∈ Pverts)
            then Some (filter (λ v, Q2Qc 0 < dot f (vsub v u))%Qc (neighbors u))
            else None) ∧
    (∀ u, u ∉ out dir_neighbors u) ∧
    (∀ u v, v ∈ out dir_neighbors u → u ∉ out dir_neighbors v).
Proof.
  eexists _, (dir_graph Pverts neighbors f).
  split; [apply build_value|]. split; [|split; [|split]].
  - intros u. by rewrite lookup_foldl_insert_with, lookup_empty.
  - intros u. by rewrite dir_graph_lookup.
  - intros u. rewrite out_dir_graph. case_decide; [|apply not_elem_of_nil].
    rewrite elem_of_out_list. intros [Himp _]. by apply not_improving_self in Himp.
  - intros u v. rewrite !out_dir_graph. repeat case_decide;
      rewrite ?elem_of_out_list, ?elem_of_nil; try tauto.
    intros [Huv _] [Hvu _]. by apply improving_asym in Huv.
Qed.

(** ** More on the relaxation *)

(** X11: on any directed graph on [Pverts], cyclic or not, the relaxation
    returns a dict in which the distance of a vertex is at most
    [len(Pverts)] and at most the length of every walk from it to the sink;
    a distance below [len(Pverts)] is the length of such a walk, and a vertex
    without any walk to the sink keeps [len(Pverts)], silently. *)
Theorem relaxation_any_graph `{Countable K}
    (Pverts : list K) (dir_neighbors : gmap K (list K)) (sink : K) :
  digraph_on Pverts dir_neighbors →
  ∃ d, relaxed_distances Pverts dir_neighbors sink = Ok d ∧
    ∀ u, u ∈ Pverts →
      ∃ k, d !! u = Some k ∧ k ≤ length Pverts ∧
        (∀ j, reach dir_neighbors sink j u → k ≤ j) ∧
        (k < length Pverts → reach dir_neighbors sink k u) ∧
        ((∀ j, ¬ reach dir_neighbors sink j u) → k = length Pverts).
Proof.
  intros Hg. exists (final_distances Pverts dir_neighbors sink). split.
  - unfold relaxed_distances, final_distances.
    rewrite relax_loop_value by (done || apply covers_init). simpl.
    by destruct (loop_value Pverts dir_neighbors (length Pverts)
                   (init_distances Pverts sink) false 0).
  - intros u Hu. exists (dist_at (final_distances Pverts dir_neighbors sink) u).
    split; [apply (covers_lookup Pverts); [apply final_covers | done]|].
    destruct (final_sound Pverts dir_neighbors sink Hg u Hu) as [Hle Hor].
    split; [done|]. split; [|split].
    + intros j Hj. by apply final_upper.
    + intros Hlt. destruct Hor as [?|?]; [lia | done].
    + intros Hno. destruct Hor as [?|Hr]; [done|]. by destruct (Hno _ Hr).
Qed.

Lemma relaxation_any_graph_witness :
  ∃ d, relaxed_distances g3_verts g3 0 = Ok d ∧
    ∀ u, u ∈ g3_verts →
      ∃ k, d !! u = Some k ∧ k ≤ length g3_verts ∧
        (∀ j, reach g3 0 j u → k ≤ j) ∧
        (k < length g3_verts → reach g3 0 k u) ∧
        ((∀ j, ¬ reach g3 0 j u) → k = length g3_verts).
Proof. apply (relaxation_any_graph g3_verts g3 0), g3_digraph. Defined.

Lemma comprehension_getitem_missing `{Countable K} (d : gmap K nat) (l : list K) x :
  x ∈ l → d !! x = None → comprehension (getitem d) l = Raise KeyError.
Proof.
  intros Hx Hn.
  destruct (comprehension (getitem d) l) as [ds|e] eqn:Hc.
  - destruct (comprehension_elem _ _ _ Hc) as [_ Hall].
    destruct (Hall x Hx) as [k Hk]. apply getitem_Ok in Hk. congruence.
  - apply comprehension_Raise in Hc as (y & _ & Hy). f_equal.
    unfold getitem in Hy. by destruct (d !! y); simplify_eq.
Qed.

(** X12: a step of the inner loop can only raise KeyError, never the
    ValueError of [min] on an empty list.  It does so when the vertex has no
    entry in [dir_neighbors], or has out-neighbours and one of them, or the
    vertex itself, has no distance; a vertex with an empty out-list is
    skipped without any lookup in [distances]. *)
Theorem relax_step_key_errors `{Countable K}
    (dir_neighbors : gmap K (list K)) (d : gmap K nat) (b : bool) (u : K) :
  (dir_neighbors !! u = None →
   relax_step dir_neighbors (d, b) u = Raise KeyError) ∧
  (dir_neighbors !! u = Some [] →
   relax_step dir_neighbors (d, b) u = Ok (d, b)) ∧
  (∀ nb x, dir_neighbors !! u = Some nb → x ∈ nb → d !! x = None →
   relax_step dir_neighbors (d, b) u = Raise KeyError) ∧
  (∀ nb, dir_neighbors !! u = Some nb → nb ≠ [] → d !! u = None →
   relax_step dir_neighbors (d, b) u = Raise KeyError) ∧
  (∀ e, relax_step dir_neighbors (d, b) u = Raise e → e = KeyError).
Proof.
  assert (∀ (A : Type) (m : gmap K A) k e, getitem m k = Raise e → e = KeyError)
    as Hget.
  { intros A m k e. unfold getitem. destruct (m !! k); [done | by intros [= <-]]. }
  assert (∀ (A : Type) (m : gmap K A) k, m !! k = None → getitem m k = Raise KeyError)
    as Hnone.
  { intros A m k Hk. unfold getitem. by rewrite Hk. }
  unfold relax_step. split; [|split; [|split; [|split]]].
  - intros Hn. by rewrite (Hnone _ dir_neighbors u Hn).
  - intros Hn. by rewrite (getitem_Some dir_neighbors u [] Hn).
  - intros nb x Hn Hx Hdx. rewrite (getitem_Some dir_neighbors u nb Hn). simpl.
    destruct nb as [|v nb]; [by apply elem_of_nil in Hx|].
    by rewrite (comprehension_getitem_missing d (v :: nb) x).
  - intros nb Hn Hne Hdu. rewrite (getitem_Some dir_neighbors u nb Hn). simpl.
    destruct nb as [|v nb]; [done|].
    destruct (comprehension (getitem d) (v :: nb)) as [ds|e] eqn:Hc.
    + simpl. pose proof (comprehension_length _ _ _ Hc) as Hlen.
      destruct ds as [|x ds]; [done|]. simpl.
      by rewrite (Hnone _ d u Hdu).
    + apply comprehension_Raise in Hc as (y & _ & Hy). simpl. f_equal.
      by apply Hget in Hy.
  - intros e.
    destruct (getitem dir_neighbors u) as [nb|e'] eqn:Hnb; simpl.
    2: { intros [= <-]. by apply Hget in Hnb. }
    destruct nb as [|v nb]; [done|].
    destruct (comprehension (getitem d) (v :: nb)) as [ds|e'] eqn:Hc.
    + simpl. pose proof (comprehension_length _ _ _ Hc) as Hlen.
      destruct ds as [|x ds]; [done|]. simpl.
      destruct (getitem d u) as [du|e'] eqn:Hdu; simpl.
      * by case_decide.
      * intros [= <-]. by apply Hget in Hdu.
    + apply comprehension_Raise in Hc as (y & _ & Hy). simpl. intros [= <-].
      by apply Hget in Hy.
Qed.

Lemma relax_step_key_errors_witness :
  relax_step g3 (∅, true) 1 = Raise KeyError.
Proof.
  apply (proj1 (proj2 (proj2 (relax_step_key_errors g3 ∅ true 1))) [0] 0).
  - vm_compute. reflexivity.
  - left.
  - vm_compute. reflexivity.
Defined.

(** ** More on the diameters *)

(** X13: the maximum of line 123 raises ValueError when there is no
    vertex and KeyError when a vertex has no distance; otherwise it is the
    distance of some vertex and no vertex has a larger one. *)
Theorem oridiam_of_maximum `{Countable K} (Pverts : list K) (d : gmap K nat) :
  oridiam_of [] d = Raise ValueError ∧
  (∀ u, u ∈ Pverts → d !! u = None → oridiam_of Pverts d = Raise KeyError) ∧
  (Pverts ≠ [] → covers Pverts d →
   ∃ m, oridiam_of Pverts d = Ok m ∧
        (∃ u, u ∈ Pverts ∧ d !! u = Some m) ∧
        (∀ u k, u ∈ Pverts → d !! u = Some k → k ≤ m)).
Proof.
  split; [done|]. split.
  - intros u Hu Hn. unfold oridiam_of.
    by rewrite (comprehension_getitem_missing d Pverts u).
  - intros Hne Hc. destruct Pverts as [|v0 rest] eqn:HP; [done|]. rewrite <-HP in *.
    unfold oridiam_of. rewrite (comprehension_total _ (dist_at d)).
    2: { intros x Hx. by apply getitem_Some, (covers_lookup Pverts). }
    exists (foldl Nat.max (dist_at d v0) (dist_at d <$> rest)).
    split; [by rewrite HP|].
    pose proof (foldl_max_elem (dist_at d v0) (dist_at d <$> rest)) as Hel.
    pose proof (foldl_max_upper (dist_at d v0) (dist_at d <$> rest)) as Hup.
    change (dist_at d v0 :: (dist_at d <$> rest))
      with (dist_at d <$> (v0 :: rest)) in Hel, Hup.
    rewrite <-HP in Hel, Hup. split.
    + apply list_elem_of_fmap in Hel as (u & Hu & Hin). exists u.
      split; [done|]. rewrite Hu. by apply (covers_lookup Pverts).
    + intros u k Hu Hk. apply Hup. apply list_elem_of_fmap. exists u.
      split; [|done]. unfold dist_at. by rewrite Hk.
Qed.

Lemma oridiam_of_maximum_witness :
  ∃ m, oridiam_of g3_verts (init_distances g3_verts 0) = Ok m ∧
       (∃ u, u ∈ g3_verts ∧ init_distances g3_verts 0 !! u = Some m) ∧
       (∀ u k, u ∈ g3_verts → init_distances g3_verts 0 !! u = Some k → k ≤ m).
Proof.
  apply (proj2 (proj2 (oridiam_of_maximum g3_verts (init_distances g3_verts 0)))).
  - discriminate.
  - apply covers_init.
Defined.

(** Without any assumption on the orientation, a directed diameter is at
    most [len(Pverts)], and at least 1 when there are two vertices. *)
Lemma orientation_diameter_range
    (Pverts : list vector) (neighbors : vector → list vector) (a : vector) :
  Pverts ≠ [] → neighbors_closed Pverts neighbors →
  ∃ d, orientation_diameter Pverts neighbors (Vec a) = Ok d ∧
       d ≤ length Pverts ∧
       ((∃ u v, u ∈ Pverts ∧ v ∈ Pverts ∧ u ≠ v) → 1 ≤ d).
Proof.
  intros Hne Hcl. destruct Pverts as [|v0 rest] eqn:HP; [done|].
  rewrite <-HP in *. set (s := scan_value a v0 Pverts).
  pose proof (dir_graph_digraph Pverts neighbors a Hcl) as Hg.
  unfold orientation_diameter.
  rewrite (proj2 (orientation_distances_value Pverts neighbors a v0 rest HP Hcl)).
  simpl. fold s.
  set (fd := final_distances Pverts (dir_graph Pverts neighbors a) s).
  rewrite (oridiam_of_value Pverts fd v0 rest HP) by apply final_covers.
  eexists. split; [done|].
  pose proof (foldl_max_elem (dist_at fd v0) (dist_at fd <$> rest)) as Hel.
  pose proof (foldl_max_upper (dist_at fd v0) (dist_at fd <$> rest)) as Hup.
  change (dist_at fd v0 :: (dist_at fd <$> rest))
    with (dist_at fd <$> (v0 :: rest)) in Hel, Hup.
  rewrite <-HP in Hel, Hup. split.
  - apply list_elem_of_fmap in Hel as (u & -> & Hu).
    by destruct (final_sound Pverts _ s Hg u Hu) as [Hle _].
  - intros (u & v & Hu & Hv & Huv).
    assert (∃ w, w ∈ Pverts ∧ w ≠ s) as (w & Hw & Hws).
    { destruct (decide (u = s)) as [->|?]; [exists v | exists u]; split; congruence. }
    etrans; [|apply Hup, list_elem_of_fmap_2, Hw].
    destruct (final_sound Pverts _ s Hg w Hw) as [_ Hor]. fold fd in Hor.
    destruct Hor as [Heq|Hr].
    + rewrite Heq, HP. simpl. lia.
    + destruct (dist_at fd w) as [|k] eqn:Hk; [|lia].
      inversion Hr. congruence.
Qed.

(** X14: whatever the orientation vectors are, for vertices whose
    neighbours are vertices the script returns a monotone diameter of at most
    [len(Pverts)]; with an orientation and two distinct vertices it is at
    least 1. *)
Theorem monodiam_range
    (Pverts : list vector) (neighbors : vector → list vector)
    (fs : list vector) :
  Pverts ≠ [] → neighbors_closed Pverts neighbors →
  ∃ monodiam,
    monotone_diameter Pverts neighbors (Vec <$> fs) = Ok monodiam ∧
    monodiam ≤ length Pverts ∧
    (fs ≠ [] → (∃ u v, u ∈ Pverts ∧ v ∈ Pverts ∧ u ≠ v) → 1 ≤ monodiam).
Proof.
  intros Hne Hcl. unfold monotone_diameter.
  assert (∀ m, m ≤ length Pverts →
    ∃ m', for_each (monodiam_step Pverts neighbors) (Vec <$> fs) m = Ok m' ∧
          m ≤ m' ∧ m' ≤ length Pverts ∧
          (fs ≠ [] → (∃ u v, u ∈ Pverts ∧ v ∈ Pverts ∧ u ≠ v) → 1 ≤ m'))
    as Hloop.
  { induction fs as [|a fs IH]; intros m Hm; simpl.
    - exists m. split; [done|]. split; [done|]. split; [done|]. done.
    - destruct (orientation_diameter_range Pverts neighbors a Hne Hcl)
        as (d & Hd & Hle & Hge).
      rewrite monodiam_step_max, Hd. simpl.
      destruct (IH (m `max` d)) as (m' & Hm' & Hmm' & Hle' & _); [lia|].
      exists m'. split; [done|]. split; [lia|]. split; [done|].
      intros _ Htwo. specialize (Hge Htwo). lia. }
  destruct (Hloop 0) as (m' & Hm' & _ & Hle & Hge); [lia|].
  exists m'. done.
Qed.

Lemma monodiam_range_witness :
  ∃ monodiam,
    monotone_diameter segment segment_neighbors (Vec <$> [f_tie; f_generic])
      = Ok monodiam ∧
    monodiam ≤ length segment ∧
    ([f_tie; f_generic] ≠ [] →
     (∃ u v, u ∈ segment ∧ v ∈ segment ∧ u ≠ v) → 1 ≤ monodiam).
Proof.
  apply (monodiam_range segment segment_neighbors [f_tie; f_generic]).
  - discriminate.
  - apply segment_closed.
Defined.

Lemma comprehension_Permutation {A B} (f : A → result B) l l' ys :
  l ≡ₚ l' → comprehension f l = Ok ys →
  ∃ ys', comprehension f l' = Ok ys' ∧ ys ≡ₚ ys'.
Proof.
  intros Hperm. revert ys.
  induction Hperm as [|x l l' _ IH|x y l|l1 l2 l3 _ IH1 _ IH2]; intros ys; simpl.
  - intros [= <-]. by exists [].
  - destruct (f x) as [z|]; simpl; [|done].
    destruct (comprehension f l) as [zs|]; simpl; [|done].
    intros [= <-]. destruct (IH zs eq_refl) as (zs' & -> & Hzs). simpl.
    exists (z :: zs'). split; [done | by constructor].
  - destruct (f y) as [zy|]; simpl; [|done].
    destruct (f x) as [zx|]; simpl; [|done].
    destruct (comprehension f l) as [zs|]; simpl; [|done].
    intros [= <-]. exists (zx :: zy :: zs). split; [done | apply perm_swap].
  - intros H1. destruct (IH1 ys H1) as (ys2 & H2 & Hp12).
    destruct (IH2 ys2 H2) as (ys3 & H3 & Hp23).
    exists ys3. split; [done | by etrans].
Qed.

Lemma monotone_diameter_max_list
    (Pverts : list vector) (neighbors : vector → list vector) (ovs : list pysum) :
  monotone_diameter Pverts neighbors ovs
    = ds ← comprehension (orientation_diameter Pverts neighbors) ovs;
      Ok (max_list ds).
Proof.
  unfold monotone_diameter. rewrite monodiam_loop.
  destruct (comprehension (orientation_diameter Pverts neighbors) ovs);
    simpl; [|done].
  by rewrite foldl_max_max_list.
Qed.

Lemma max_list_prefix (l1 l2 : list nat) : max_list l1 ≤ max_list (l1 ++ l2).
Proof. induction l1 as [|x l1 IH]; simpl; lia. Qed.

(** X15: when the script returns a monotone diameter, processing the same
    orientation vectors in any other order returns the same value, and
    processing only a leading part of them returns a value that is not
    larger. *)
Theorem monodiam_order_independent
    (Pverts : list vector) (neighbors : vector → list vector)
    (ovs : list pysum) (monodiam : nat) :
  monotone_diameter Pverts neighbors ovs = Ok monodiam →
  (∀ ovs', ovs ≡ₚ ovs' → monotone_diameter Pverts neighbors ovs' = Ok monodiam) ∧
  (∀ front back, ovs = front ++ back →
     ∃ m, monotone_diameter Pverts neighbors front = Ok m ∧ m ≤ monodiam).
Proof.
  rewrite monotone_diameter_max_list.
  destruct (comprehension (orientation_diameter Pverts neighbors) ovs)
    as [ds|e] eqn:Hds; simpl; [|done].
  intros [= <-]. split.
  - intros ovs' Hperm. rewrite monotone_diameter_max_list.
    destruct (comprehension_Permutation _ _ _ _ Hperm Hds) as (ds' & -> & Hp).
    simpl. by rewrite Hp.
  - intros front back ->. rewrite comprehension_app in Hds.
    rewrite monotone_diameter_max_list.
    destruct (comprehension (orientation_diameter Pverts neighbors) front)
      as [ds1|]; simpl in *; [|done].
    destruct (comprehension (orientation_diameter Pverts neighbors) back)
      as [ds2|]; simpl in *; [|done].
    injection Hds as <-. exists (max_list ds1). split; [done|].
    apply max_list_prefix.
Qed.

Lemma monodiam_order_independent_witness :
  (∀ ovs', [Vec f_generic; Vec f_tie] ≡ₚ ovs' →
     monotone_diameter segment segment_neighbors ovs' = Ok 2) ∧
  (∀ front back, [Vec f_generic; Vec f_tie] = front ++ back →
     ∃ m, monotone_diameter segment segment_neighbors front = Ok m ∧ m ≤ 2).
Proof.
  apply (monodiam_order_independent segment segment_neighbors
           [Vec f_generic; Vec f_tie] 2).
  by_compute.
Defined.

(** ** More on the orientation vectors *)

Lemma vadd_comm (a b : vector) : vadd a b = vadd b a.
Proof.
  unfold vadd. revert b. induction a as [|x a IH]; intros [|y b]; simpl; try done.
  f_equal; [ring | apply IH].
Qed.

Lemma vadd_assoc (a b c : vector) : vadd (vadd a b) c = vadd a (vadd b c).
Proof.
  unfold vadd. revert b c.
  induction a as [|x a IH]; intros [|y b] [|z c]; simpl; try done.
  f_equal; [ring | apply IH].
Qed.

Lemma pysum_add_swap (acc : pysum) (a b : vector) :
  pysum_add (pysum_add acc a) b = pysum_add (pysum_add acc b) a.
Proof.
  destruct acc as [|c]; simpl; f_equal.
  - apply vadd_comm.
  - by rewrite !vadd_assoc, (vadd_comm a b).
Qed.

Lemma dot_vadd (a b v : vector) :
  length a = length b → dot (vadd a b) v = (dot a v + dot b v)%Qc.
Proof.
  unfold dot, vadd. revert b v.
  induction a as [|x a IH]; intros [|y b] [|z v] Hlen; simpl in *;
    try done; try (apply Qc_is_canon; reflexivity).
  rewrite IH by lia. ring.
Qed.

Lemma vadd_length (a b : vector) : length (vadd a b) = length a `min` length b.
Proof. unfold vadd. apply length_zip_with. Qed.

(** X16: the orientation vector of a region does not depend on the order
    in which its rays are listed; and for rays of one dimension the value of
    the functional at a vertex is the sum of the rays' values there. *)
Theorem interior_point_sum (rays : list vector) :
  (∀ rays', rays ≡ₚ rays' → interior_point rays' = interior_point rays) ∧
  (∀ n r rest v, rays = r :: rest → (∀ x, x ∈ rays → length x = n) →
     dot_product (interior_point rays) v
       = Ok (foldl (λ acc x, acc + dot x v)%Qc (dot r v) rest)).
Proof.
  split.
  - intros rays' Hperm. unfold interior_point. generalize Int0.
    induction Hperm as [|x l l' _ IH|x y l|l1 l2 l3 _ IH1 _ IH2]; intros acc; simpl.
    + done.
    + apply IH.
    + by rewrite pysum_add_swap.
    + by rewrite IH2, IH1.
  - intros n r rest v -> Hdim. rewrite interior_point_cons. simpl. f_equal.
    assert (length r = n) as Hr by (apply Hdim; left).
    assert (∀ x, x ∈ rest → length x = n) as Hrest.
    { intros x Hx. apply Hdim. by right. }
    clear Hdim. revert r Hr. induction rest as [|x rest IH]; intros r Hr; simpl.
    + done.
    + rewrite IH.
      * rewrite dot_vadd; [done|]. rewrite Hr. symmetry. apply Hrest. left.
      * intros y Hy. apply Hrest. by right.
      * rewrite vadd_length, Hr, (Hrest x) by left. lia.
Qed.

Lemma interior_point_sum_witness :
  dot_product (interior_point [[qz 1; qz 0]; [qz 0; qz 1]]) sq11
    = Ok (foldl (λ acc x, acc + dot x sq11)%Qc (dot [qz 1; qz 0] sq11)
            [[qz 0; qz 1]]).
Proof.
  apply (proj2 (interior_point_sum [[qz 1; qz 0]; [qz 0; qz 1]]) 2
           [qz 1; qz 0] [[qz 0; qz 1]] sq11 eq_refl).
  intros x Hx. rewrite !elem_of_cons, elem_of_nil in Hx.
  by destruct Hx as [->|[->|[]]].
Defined.

Lemma dot_vneg_l (a w : vector) : dot (vneg a) w = (- dot a w)%Qc.
Proof.
  unfold dot, vneg. revert w. induction a as [|x a IH]; intros [|y w]; simpl;
    try (apply Qc_is_canon; reflexivity).
  change (list_fmap Qc Qc Qcopp a) with (Qcopp <$> a).
  rewrite IH. ring.
Qed.

(** X17: the opposite orientation vector reverses the graph: for two
    vertices adjacent to each other, [u → v] is an edge of the graph built
    for [−f] exactly when [v → u] is an edge of the graph built for [f]. *)
Theorem opposite_orientation_reverses
    (Pverts : list vector) (neighbors : vector → list vector) (f : vector) :
  ∃ distances dn distances' dn',
    build Pverts neighbors (Vec f) = Ok (distances, dn) ∧
    build Pverts neighbors (Vec (vneg f)) = Ok (distances', dn') ∧
    distances' = distances ∧
    ∀ u v, u ∈ Pverts → v ∈ Pverts → v ∈ neighbors u → u ∈ neighbors v →
      (v ∈ out dn' u ↔ u ∈ out dn v).
Proof.
  eexists _, (dir_graph Pverts neighbors f), _,
    (dir_graph Pverts neighbors (vneg f)).
  split; [apply build_value|]. split; [apply build_value|]. split; [done|].
  intros u v Hu Hv Huv Hvu.
  rewrite !out_dir_graph, !decide_True by done.
  rewrite !elem_of_out_list. unfold improving.
  rewrite dot_vneg_l, (dot_vsub_swap f v u). split.
  - intros [Hpos _]. split; [|done]. qc_lra.
  - intros [Hpos _]. split; [|done]. qc_lra.
Qed.

(** ** Independence of the enumeration order of the vertices *)

Lemma digraph_on_Permutation `{Countable K} (Pverts Pverts' : list K)
    (dir_neighbors : gmap K (list K)) :
  Pverts ≡ₚ Pverts' → digraph_on Pverts dir_neighbors →
  digraph_on Pverts' dir_neighbors.
Proof.
  intros Hperm [Hkeys Hedges]. split.
  - intros u. rewrite <-Hperm. apply Hkeys.
  - intros u v Hv. rewrite <-Hperm. by apply (Hedges u).
Qed.

Lemma final_distances_sink `{Countable K} (Pverts : list K)
    (dir_neighbors : gmap K (list K)) (sink : K) :
  digraph_on Pverts dir_neighbors →
  final_distances Pverts dir_neighbors sink !! sink = Some 0.
Proof.
  intros Hg.
  destruct (loop_value Pverts dir_neighbors (length Pverts)
              (init_distances Pverts sink) false 0) as [d r] eqn:Hloop.
  assert (relax_loop Pverts dir_neighbors (length Pverts)
            (init_distances Pverts sink) false 0 = Ok (d, r)) as Hrun.
  { rewrite relax_loop_value by (done || apply covers_init). by rewrite Hloop. }
  destruct (relax_loop_le _ _ _ _ _ _ _ _ Hrun sink 0) as (k & Hk & Hle).
  { rewrite init_distances_lookup. by rewrite decide_True. }
  unfold final_distances. rewrite Hloop. simpl. rewrite Hk. f_equal. lia.
Qed.

Lemma final_distances_Permutation `{Countable K} (Pverts Pverts' : list K)
    (dir_neighbors : gmap K (list K)) (sink : K) :
  Pverts ≡ₚ Pverts' → digraph_on Pverts dir_neighbors →
  final_distances Pverts' dir_neighbors sink
    = final_distances Pverts dir_neighbors sink.
Proof.
  intros Hperm Hg.
  pose proof (digraph_on_Permutation _ _ _ Hperm Hg) as Hg'.
  pose proof (Permutation_length Hperm) as Hlen.
  apply map_eq. intros x.
  destruct (decide (x = sink)) as [->|Hxs].
  { by rewrite !final_distances_sink. }
  destruct (decide (x ∈ Pverts)) as [Hx|Hx].
  - assert (x ∈ Pverts') as Hx' by (by rewrite <-Hperm).
    rewrite (covers_lookup Pverts' _ x (final_covers _ _ _) Hx').
    rewrite (covers_lookup Pverts _ x (final_covers _ _ _) Hx). f_equal.
    destruct (final_sound Pverts dir_neighbors sink Hg x Hx) as [Hle Hor].
    destruct (final_sound Pverts' dir_neighbors sink Hg' x Hx') as [Hle' Hor'].
    pose proof (final_upper Pverts dir_neighbors sink x) as Hup.
    pose proof (final_upper Pverts' dir_neighbors sink x) as Hup'.
    destruct Hor as [Heq|Hr]; destruct Hor' as [Heq'|Hr'].
    + lia.
    + specialize (Hup _ Hg Hx Hr'). lia.
    + specialize (Hup' _ Hg' Hx' Hr). lia.
    + specialize (Hup _ Hg Hx Hr'). specialize (Hup' _ Hg' Hx' Hr). lia.
  - assert (x ∉ Pverts') as Hx' by (by rewrite <-Hperm).
    by rewrite !final_None.
Qed.

Lemma relaxed_distances_final `{Countable K} (Pverts : list K)
    (dir_neighbors : gmap K (list K)) (sink : K) :
  digraph_on Pverts dir_neighbors →
  relaxed_distances Pverts dir_neighbors sink
    = Ok (final_distances Pverts dir_neighbors sink).
Proof.
  intros Hg. unfold relaxed_distances, final_distances.
  rewrite relax_loop_value by (done || apply covers_init). simpl.
  by destruct (loop_value Pverts dir_neighbors (length Pverts)
                 (init_distances Pverts sink) false 0).
Qed.

(** X18: the dict the relaxation returns does not depend on the order in
    which the vertices are enumerated, on any directed graph, although the
    updates are made in place in that order. *)
Theorem relaxation_order_independent `{Countable K} (Pverts Pverts' : list K)
    (dir_neighbors : gmap K (list K)) (sink : K) :
  Pverts ≡ₚ Pverts' → digraph_on Pverts dir_neighbors →
  ∃ d, relaxed_distances Pverts dir_neighbors sink = Ok d ∧
       relaxed_distances Pverts' dir_neighbors sink = Ok d.
Proof.
  intros Hperm Hg. exists (final_distances Pverts dir_neighbors sink).
  split; [by apply relaxed_distances_final|].
  rewrite relaxed_distances_final by (by eapply digraph_on_Permutation).
  f_equal. by apply final_distances_Permutation.
Qed.

Lemma relaxation_order_independent_witness :
  ∃ d, relaxed_distances g3_verts g3 0 = Ok d ∧
       relaxed_distances [1; 0; 2] g3 0 = Ok d.
Proof.
  apply (relaxation_order_independent g3_verts [1; 0; 2] g3 0).
  - apply perm_swap.
  - apply g3_digraph.
Defined.

Lemma dir_graph_Permutation (Pverts Pverts' : list vector)
    (neighbors : vector → list vector) (a : vector) :
  Pverts ≡ₚ Pverts' →
  dir_graph Pverts' neighbors a = dir_graph Pverts neighbors a.
Proof.
  intros Hperm. apply map_eq. intros u. rewrite !dir_graph_lookup.
  destruct (decide (u ∈ Pverts)) as [Hu|Hu].
  - rewrite decide_True; [done | by rewrite <-Hperm].
  - rewrite decide_False; [done | by rewrite <-Hperm].
Qed.

(** X19: for an orientation vector that takes pairwise different values at
    the vertices, the directed diameter does not depend on the order in which
    the vertices are enumerated. *)
Theorem orientation_diameter_order_independent
    (Pverts Pverts' : list vector) (neighbors : vector → list vector) (f : vector) :
  Pverts ≠ [] → Pverts ≡ₚ Pverts' →
  neighbors_closed Pverts neighbors →
  (∀ u v, u ∈ Pverts → v ∈ Pverts → dot f u = dot f v → u = v) →
  ∃ d, orientation_diameter Pverts neighbors (Vec f) = Ok d ∧
       orientation_diameter Pverts' neighbors (Vec f) = Ok d.
Proof.
  intros Hne Hperm Hcl Hinj.
  assert (Pverts' ≠ []) as Hne'.
  { intros ->. by apply Permutation_nil_r in Hperm. }
  assert (neighbors_closed Pverts' neighbors) as Hcl'.
  { intros u v Hu Hv. rewrite <-Hperm in Hu |- *. by apply (Hcl u). }
  destruct Pverts as [|v0 rest] eqn:HP; [done|].
  destruct Pverts' as [|v0' rest'] eqn:HP'; [done|].
  rewrite <-HP, <-HP' in *.
  set (s := scan_value f v0 Pverts). set (s' := scan_value f v0' Pverts').
  assert (s = s') as Hss.
  { assert (s ∈ Pverts) as Hs.
    { destruct (scan_value_elem f v0 Pverts) as [Heq|Hin]; [|done].
      unfold s. rewrite Heq, HP. left. }
    assert (s' ∈ Pverts') as Hs'.
    { destruct (scan_value_elem f v0' Pverts') as [Heq|Hin]; [|done].
      unfold s'. rewrite Heq, HP'. left. }
    apply Hinj; [done | by rewrite Hperm|].
    apply Qc_le_antisym.
    - apply scan_value_max. by rewrite <-Hperm.
    - apply scan_value_max. by rewrite Hperm. }
  pose proof (dir_graph_digraph Pverts neighbors f Hcl) as Hg.
  unfold orientation_diameter.
  rewrite (proj2 (orientation_distances_value Pverts neighbors f v0 rest HP Hcl)).
  rewrite (proj2 (orientation_distances_value Pverts' neighbors f v0' rest' HP' Hcl')).
  simpl. fold s s'. rewrite <-Hss.
  rewrite (dir_graph_Permutation Pverts Pverts' neighbors f Hperm).
  rewrite (final_distances_Permutation Pverts Pverts' _ s Hperm Hg).
  set (fd := final_distances Pverts (dir_graph Pverts neighbors f) s).
  assert (covers Pverts fd) as Hc by apply final_covers.
  assert (covers Pverts' fd) as Hc'.
  { intros u Hu. apply Hc. by rewrite Hperm. }
  rewrite (oridiam_of_value Pverts fd v0 rest HP Hc).
  rewrite (oridiam_of_value Pverts' fd v0' rest' HP' Hc').
  eexists. split; [done|]. f_equal.
  pose proof (foldl_max_elem (dist_at fd v0) (dist_at fd <$> rest)) as Hel.
  pose proof (foldl_max_upper (dist_at fd v0) (dist_at fd <$> rest)) as Hup.
  pose proof (foldl_max_elem (dist_at fd v0') (dist_at fd <$> rest')) as Hel'.
  pose proof (foldl_max_upper (dist_at fd v0') (dist_at fd <$> rest')) as Hup'.
  change (dist_at fd v0 :: (dist_at fd <$> rest))
    with (dist_at fd <$> (v0 :: rest)) in Hel, Hup.
  change (dist_at fd v0' :: (dist_at fd <$> rest'))
    with (dist_at fd <$> (v0' :: rest')) in Hel', Hup'.
  rewrite <-HP in Hel, Hup. rewrite <-HP' in Hel', Hup'.
  apply Nat.le_antisymm.
  - apply Hup. by rewrite Hperm.
  - apply Hup'. by rewrite <-Hperm.
Qed.

Lemma segment_generic_injective :
  ∀ u v, u ∈ segment → v ∈ segment → dot f_generic u = dot f_generic v → u = v.
Proof.
  assert (Forall (λ u, Forall (λ v, dot f_generic u = dot f_generic v → u = v)
                          segment) segment) as Hall by by_compute.
  intros u v Hu Hv. rewrite Forall_forall in Hall.
  specialize (Hall u Hu). rewrite Forall_forall in Hall. by apply Hall.
Qed.

Lemma orientation_diameter_order_independent_witness :
  ∃ d, orientation_diameter segment segment_neighbors (Vec f_generic) = Ok d ∧
       orientation_diameter [sq10; sq00] segment_neighbors (Vec f_generic) = Ok d.
Proof.
  apply (orientation_diameter_order_independent segment [sq10; sq00]).
  - discriminate.
  - apply perm_swap.
  - apply segment_closed.
  - apply segment_generic_injective.
Defined.
